(** * list_rocm_nightly: version parsing, candidate ordering and reporting

    A shallow embedding of [tools/list_rocm_nightly.py].

    Modelling conventions.
    - A Python [str] is a [string]: text over the code points below 256,
      among which [\d] matches ['0'..'9'] only.
    - The regular expressions of the script are terms of [Re.regex] and are
      run by a backtracking matcher with the priorities of Python's [re]
      (greedy quantifiers, leftmost alternative first, groups captured on the
      successful path).
    - A Python exception is the [None] of an [option] result.
    - [int] converts at most 4300 digits, the default limit of the
      interpreter; a longer digit run is a [ValueError].
    - The network is an oracle from URL to response body; its [None] is any
      exception of [urlopen], [read] or [decode]: a URL that [urlopen]
      refuses (one with a blank or a control character) as well as a failed
      request.
    - [argparse] is modelled after tokenisation: the command line supplies an
      optional value for each of the options [-p], [-t], [-c] and [-q];
      [-h] is left out. *)

From Stdlib Require Import String Ascii List ZArith Lia Bool Arith.
From Stdlib Require Import Permutation Sorted DecimalString.
Import ListNotations.

Local Open Scope list_scope.
Local Open Scope string_scope.

(** ** Strings *)

Module Str.

(** [s[:n]] for a natural [n]. *)
Fixpoint take (n : nat) (s : string) : string :=
  match n, s with
  | S n', String a s' => String a (take n' s')
  | _, _ => ""
  end.

(** The part of [s] in front of its suffix [s']: the text a group captured
    when the matcher entered it at [s] and left it at [s']. *)
Definition taken (s s' : string) : string :=
  take (String.length s - String.length s') s.

(** [s[:-2]]: all but the last two characters (empty when there are fewer). *)
Definition drop_last2 (s : string) : string :=
  take (String.length s - 2) s.

(** Python truthiness of an optional string: [None] and [""] are falsy. *)
Definition truthy (o : option string) : bool :=
  match o with
  | Some (String _ _) => true
  | _ => false
  end.

Definition all (p : ascii -> bool) : string -> bool :=
  fix go s :=
    match s with
    | "" => true
    | String a s' => p a && go s'
    end.

(** The first character of [s], if any, fails [p]. *)
Definition head_fails (p : ascii -> bool) (s : string) : bool :=
  match s with
  | "" => true
  | String a _ => negb (p a)
  end.

End Str.

(** ** A backtracking matcher for the regular expressions of the script *)

Module Re.

Inductive regex : Type :=
| Eps                             (* the empty pattern *)
| Lit (a : ascii)                 (* a literal character, also an escaped one *)
| Cls (p : ascii -> bool)         (* a character class *)
| Cat (r1 r2 : regex)             (* r1 r2 *)
| Alt (r1 r2 : regex)             (* r1|r2 *)
| Opt (r : regex)                 (* r?  greedy *)
| Plus (r : regex)                (* r+  greedy *)
| Grp (i : nat) (r : regex)       (* capturing group number i *)
| Eos.                            (* $ *)

Infix ">>" := Cat (at level 61, right associativity).

(** The pattern that matches the text [s] literally. *)
Fixpoint text (s : string) : regex :=
  match s with
  | "" => Eps
  | String a s' => Lit a >> text s'
  end.

(** [re.escape(s)] spliced into a pattern: every character of [s] stands for
    itself. *)
Definition escape (s : string) : regex := text s.

(** Group captures, most recent first. *)
Definition captures := list (nat * string).

Fixpoint lookup (i : nat) (c : captures) : option string :=
  match c with
  | [] => None
  | (j, s) :: c' => if Nat.eqb i j then Some s else lookup i c'
  end.

Definition cont (A : Type) := string -> captures -> option A.

Section Loop.
Context {A : Type}.
Variable step : string -> captures -> cont A -> option A.
Variable k : cont A.

(** [r+]: one more iteration is tried before leaving the loop; an iteration
    that consumes nothing ends it.  [n] bounds the remaining input. *)
Fixpoint plus_loop (n : nat) (s : string) (c : captures) {struct n}
  : option A :=
  step s c (fun s' c' =>
    match n with
    | O => k s' c'
    | S n' =>
        if Nat.ltb (String.length s') (String.length s) then
          match plus_loop n' s' c' with
          | Some x => Some x
          | None => k s' c'
          end
        else k s' c'
    end).
End Loop.

Fixpoint run {A : Type} (r : regex) (s : string) (c : captures) (k : cont A)
  {struct r} : option A :=
  match r with
  | Eps => k s c
  | Lit a =>
      match s with
      | String b s' => if Ascii.eqb a b then k s' c else None
      | "" => None
      end
  | Cls p =>
      match s with
      | String b s' => if p b then k s' c else None
      | "" => None
      end
  | r1 >> r2 => run r1 s c (fun s' c' => run r2 s' c' k)
  | Alt r1 r2 =>
      match run r1 s c k with
      | Some x => Some x
      | None => run r2 s c k
      end
  | Opt r1 =>
      match run r1 s c k with
      | Some x => Some x
      | None => k s c
      end
  | Plus r1 => plus_loop (fun s c k' => run r1 s c k') k (String.length s) s c
  | Grp i r1 => run r1 s c (fun s' c' => k s' ((i, Str.taken s s') :: c'))
  | Eos =>
      (* end of the string, or just before a newline that ends it *)
      match s with
      | "" => k s c
      | String "010"%char "" => k s c
      | _ => None
      end
  end.

(** A match object: the input left after the match and the groups. *)
Record match_obj : Type := MatchObj { rest : string; caps : captures }.

Definition group (i : nat) (m : match_obj) : option string :=
  lookup i (caps m).

Definition accept : cont match_obj := fun s c => Some (MatchObj s c).

(** [re.match(r, s)]: a match that starts at the first character. *)
Definition re_match (r : regex) (s : string) : option match_obj :=
  run r s [] accept.

(** [r.search(s)]: the match at the leftmost position that has one. *)
Fixpoint search (r : regex) (s : string) : option match_obj :=
  match re_match r s with
  | Some m => Some m
  | None =>
      match s with
      | "" => None
      | String _ s' => search r s'
      end
  end.

(** [re.findall(r, s)] for a pattern with one group: group 1 of every
    non-overlapping match, scanning from the left.  [skip] counts the
    characters of the last match still to be passed over. *)
Fixpoint findall_from (r : regex) (skip : nat) (s : string) : list string :=
  let found m :=
    match group 1 m with Some g => g | None => "" end in
  match s with
  | "" =>
      match skip, re_match r s with
      | O, Some m => [found m]
      | _, _ => []
      end
  | String _ s' =>
      match skip with
      | S n => findall_from r n s'
      | O =>
          match re_match r s with
          | Some m =>
              found m
              :: findall_from r
                   (String.length s - String.length (rest m) - 1) s'
          | None => findall_from r 0 s'
          end
      end
  end.

Definition findall (r : regex) (s : string) : list string :=
  findall_from r 0 s.

(** *** Bounds of the loop *)

(** Two continuations that agree on the inputs of at most [n] characters. *)
Definition agree {A : Type} (n : nat) (k1 k2 : cont A) : Prop :=
  forall s c, String.length s <= n -> k1 s c = k2 s c.

(** A matcher that hands to its continuation only what is left of its
    input. *)
Definition local {A : Type}
  (step : string -> captures -> cont A -> option A) : Prop :=
  forall s c k1 k2,
    agree (String.length s) k1 k2 -> step s c k1 = step s c k2.

(** *** What a pattern matches, without the search order

    [sem r s1 s2 c c'] : [r] matches the text [s1] when [s2] follows it, and
    turns the captures [c] into [c']. *)

Section Iter.
Variable R : string -> string -> captures -> captures -> Prop.

Inductive iter : string -> string -> captures -> captures -> Prop :=
| iter_last s1 s2 c c' :
    R s1 s2 c c' -> iter s1 s2 c c'
| iter_next u v s2 c cm c' :
    R u (v ++ s2) c cm -> iter v s2 cm c' -> iter (u ++ v) s2 c c'.
End Iter.

Fixpoint sem (r : regex) (s1 s2 : string) (c c' : captures) : Prop :=
  match r with
  | Eps => s1 = "" /\ c' = c
  | Lit a => s1 = String a "" /\ c' = c
  | Cls p => exists a, p a = true /\ s1 = String a "" /\ c' = c
  | r1 >> r2 =>
      exists u v cm,
        s1 = u ++ v /\ sem r1 u (v ++ s2) c cm /\ sem r2 v s2 cm c'
  | Alt r1 r2 => sem r1 s1 s2 c c' \/ sem r2 s1 s2 c c'
  | Opt r1 => sem r1 s1 s2 c c' \/ (s1 = "" /\ c' = c)
  | Plus r1 => iter (sem r1) s1 s2 c c'
  | Grp i r1 => exists cm, sem r1 s1 s2 c cm /\ c' = (i, s1) :: cm
  | Eos => s1 = "" /\ c' = c /\ (s2 = "" \/ s2 = String "010"%char "")
  end.

(** [v] has a match of [r] at its first character. *)
Definition matches (r : regex) (v : string) : Prop :=
  exists s1 s2 c', v = s1 ++ s2 /\ sem r s1 s2 [] c'.

End Re.

Import Re.

(** ** The script *)

Definition S3_BASE : string :=
  "https://therock-nightly-tarball.s3.amazonaws.com/".

(** [\d] *)
Definition is_digit (a : ascii) : bool :=
  (48 <=? nat_of_ascii a)%nat && (nat_of_ascii a <=? 57)%nat.

Definition digit : regex := Cls is_digit.

(** The most digits [int] converts, leading zeros counted: the default of
    [sys.set_int_max_str_digits]. *)
Definition max_str_digits : Z := 4300.

(** The decimal value of a digit run, digit by digit; [None] at a character
    that is no digit.  [int] calls it below the limit only. *)
Fixpoint int_from (acc : Z) (s : string) : option Z :=
  match s with
  | "" => Some acc
  | String a s' =>
      if is_digit a
      then int_from (10 * acc + (Z.of_nat (nat_of_ascii a) - 48)) s'
      else None
  end.

(** [int(s)] on the text of a [\d+] group.  [None] is the [ValueError] of a
    text that is not a digit run, or of a digit run over the limit; the
    script applies [int] to digit runs only. *)
Definition int (s : string) : option Z :=
  match s with
  | "" => None
  | _ =>
      if (max_str_digits <? Z.of_nat (String.length s))%Z then None
      else int_from 0 s
  end.

(** [int(g)] for a group [g] that may be [None] ([TypeError]). *)
Definition int_group (g : option string) : option Z :=
  match g with
  | Some s => int s
  | None => None
  end.

(** [int(g or 0)] *)
Definition int_or_0 (g : option string) : option Z :=
  if Str.truthy g then int_group g else Some 0%Z.

Definition VersionKey : Type := (Z * Z * Z * Z * Z)%type.

(** [(\d+)\.(\d+)\.(\d+)(a|rc)?(\d+)?$] *)
Definition version_re : regex :=
  Grp 1 (Plus digit) >> Lit "." >>
  Grp 2 (Plus digit) >> Lit "." >>
  Grp 3 (Plus digit) >>
  Opt (Grp 4 (Alt (Lit "a") (Lit "r" >> Lit "c"))) >>
  Opt (Grp 5 (Plus digit)) >>
  Eos.

Definition bind {A B : Type} (o : option A) (f : A -> option B) : option B :=
  match o with
  | Some a => f a
  | None => None
  end.

Notation "x <- e ;; f" := (bind e (fun x => f))
  (at level 62, e at next level, right associativity).

Definition parse_version (v : string) : option VersionKey :=
  match re_match version_re v with
  | None => Some (0, 0, 0, 1, 0)%Z
  | Some m =>
      let pre_type := group 4 m in
      let pre_order :=
        if negb (Str.truthy pre_type) then 2%Z
        else if
          match pre_type with Some t => String.eqb t "a" | None => false end
        then 0%Z
        else 1%Z in
      major <- int_group (group 1 m) ;;
      minor <- int_group (group 2 m) ;;
      patch <- int_group (group 3 m) ;;
      pre_num <- int_or_0 (group 5 m) ;;
      Some (major, minor, patch, pre_order, pre_num)
  end.

(** *** Comparison of tuples and strings, as [<] and [==] of Python *)

Definition key_eqb (x y : VersionKey) : bool :=
  let '(a1, b1, c1, d1, e1) := x in
  let '(a2, b2, c2, d2, e2) := y in
  (a1 =? a2)%Z && (b1 =? b2)%Z && (c1 =? c2)%Z && (d1 =? d2)%Z && (e1 =? e2)%Z.

(** The first position where the tuples differ decides. *)
Definition key_ltb (x y : VersionKey) : bool :=
  let '(a1, b1, c1, d1, e1) := x in
  let '(a2, b2, c2, d2, e2) := y in
  if negb (a1 =? a2)%Z then (a1 <? a2)%Z
  else if negb (b1 =? b2)%Z then (b1 <? b2)%Z
  else if negb (c1 =? c2)%Z then (c1 <? c2)%Z
  else if negb (d1 =? d2)%Z then (d1 <? d2)%Z
  else (e1 <? e2)%Z.

(** [x > y] *)
Definition key_gtb (x y : VersionKey) : bool := key_ltb y x.

Definition Candidate : Type := (VersionKey * string)%type.

(** [<] on the pairs [(VersionKey, key)]: the key string decides between
    equal version tuples. *)
Definition cand_ltb (x y : Candidate) : bool :=
  if key_eqb (fst x) (fst y) then String.ltb (snd x) (snd y)
  else key_ltb (fst x) (fst y).

(** *** [list.sort(reverse=True)] *)

(** A stable ascending sort that compares with [<] only, as the sort of
    Python does; the elements are inserted one by one. *)
Fixpoint insert (x : Candidate) (l : list Candidate) : list Candidate :=
  match l with
  | [] => [x]
  | y :: l' => if cand_ltb y x then y :: insert x l' else x :: l
  end.

Fixpoint stable_sort (l : list Candidate) : list Candidate :=
  match l with
  | [] => []
  | x :: l' => insert x (stable_sort l')
  end.

(** The list is reversed, sorted and reversed again, which keeps equal
    elements in their original order. *)
Definition sort_reverse (l : list Candidate) : list Candidate :=
  rev (stable_sort (rev l)).

(** [l[:n]]: a negative [n] counts from the end. *)
Definition slice_to {A : Type} (n : Z) (l : list A) : list A :=
  if (n <? 0)%Z then firstn (Z.to_nat (Z.of_nat (length l) + n)) l
  else firstn (Z.to_nat n) l.

(** *** Command line *)

Record CommandLine : Type := {
  opt_platform : option string;     (* -p/--platform VALUE *)
  opt_target : option string;       (* -t/--target VALUE *)
  opt_count : option Z;             (* -c/--count VALUE, read by int *)
  opt_quiet : bool                  (* -q/--quiet *)
}.

Record Args : Type := {
  platform : string;
  target : string;
  count : Z;
  quiet : bool
}.

Definition platform_choices : list string := ["linux"; "windows"].

Definition default {A : Type} (d : A) (o : option A) : A :=
  match o with
  | Some a => a
  | None => d
  end.

(** [p.parse_args()]; [None] is the usage error of a value outside
    [choices]. *)
Definition parse_args (cl : CommandLine) : option Args :=
  let p := default "linux" (opt_platform cl) in
  if existsb (String.eqb p) platform_choices then
    Some {| platform := p;
            target := default "gfx1151" (opt_target cl);
            count := default 5%Z (opt_count cl);
            quiet := opt_quiet cl |}
  else None.

(** *** [main] *)

Definition s3_target_of (target : string) : string :=
  if String.eqb target "gfx110X" then target ++ "-dgpu"
  else if String.eqb target "gfx120X" then target ++ "-all"
  else target.

Definition prefix_of (platform s3_target : string) : string :=
  "therock-dist-" ++ platform ++ "-" ++ s3_target ++ "-7".

(** [{re.escape(prefix[:-2])}-(\d+\.\d+\.\d+(?:a\d+|rc\d+)?)\.tar\.gz$] *)
Definition pattern_of (prefix : string) : regex :=
  escape (Str.drop_last2 prefix) >> Lit "-" >>
  Grp 1 (Plus digit >> Lit "." >> Plus digit >> Lit "." >> Plus digit >>
         Opt (Alt (Lit "a" >> Plus digit) (Lit "r" >> Lit "c" >> Plus digit)))
  >> Lit "." >> text "tar" >> Lit "." >> text "gz" >> Eos.

(** [<Key>([^<]+)</Key>] *)
Definition key_re : regex :=
  text "<Key>" >> Grp 1 (Plus (Cls (fun a => negb (Ascii.eqb a "<")))) >>
  text "</Key>".

(** [parse_version(m.group(1))] *)
Definition parse_group1 (m : match_obj) : option VersionKey :=
  match group 1 m with
  | Some v => parse_version v
  | None => None
  end.

(** The loop over the keys of the listing. *)
Fixpoint collect (pattern : regex) (keys : list string)
  (candidates : list Candidate) : option (list Candidate) :=
  match keys with
  | [] => Some candidates
  | key :: keys' =>
      match search pattern key with
      | Some m =>
          v <- parse_group1 m ;;
          collect pattern keys' (candidates ++ [(v, key)])%list
      | None => collect pattern keys' candidates
      end
  end.

Definition extract (pattern : regex) (data : string)
  : option (list Candidate) :=
  collect pattern (findall key_re data) [].

(** [str(n)] *)
Definition str_of_nat (n : nat) : string :=
  NilZero.string_of_uint (Nat.to_uint n).

(** The two status lines. *)
Definition fetching_line (prefix : string) : string :=
  "Fetching S3 listing for prefix: " ++ prefix ++ " ...".

Definition showing_line (n : nat) : string :=
  "Showing " ++ str_of_nat n ++ " newest candidate(s):".

Definition url_of (c : Candidate) : string := S3_BASE ++ snd c.

(** [candidates[: args.count] if candidates else []] *)
Definition newest_of (count : Z) (candidates : list Candidate)
  : list Candidate :=
  match candidates with
  | [] => []
  | _ => slice_to count candidates
  end.

Inductive exit : Type :=
| Finished          (* falls off the end of main *)
| UsageError        (* argparse rejects the command line *)
| Raised.           (* an exception leaves main *)

Record run_result : Type := { stdout : list string; status : exit }.

Definition info (quiet : bool) (line : string) : list string :=
  if quiet then [] else [line].

(** The lines printed for the URLs. *)
Definition report (newest : list Candidate) : list string :=
  map url_of newest.

Definition main (cl : CommandLine) (urlopen : string -> option string)
  : run_result :=
  match parse_args cl with
  | None => {| stdout := []; status := UsageError |}
  | Some args =>
      let s3_target := s3_target_of (target args) in
      let prefix := prefix_of (platform args) s3_target in
      let pattern := pattern_of prefix in
      let out1 := info (quiet args) (fetching_line prefix) in
      match urlopen (S3_BASE ++ "?prefix=" ++ prefix) with
      | None => {| stdout := out1; status := Raised |}
      | Some data =>
          match extract pattern data with
          | None => {| stdout := out1; status := Raised |}
          | Some candidates =>
              let candidates := sort_reverse candidates in
              let newest := newest_of (count args) candidates in
              let out2 :=
                info (quiet args) (showing_line (length newest)) in
              {| stdout := (out1 ++ out2 ++ report newest)%list;
                 status := Finished |}
          end
      end
  end.

(** ** Version strings, as the specification describes them *)

Inductive channel : Type := Alpha | RC.

(** The text of a version: three digit runs and an optional suffix, a channel
    marker followed by the digits of the build number. *)
Record version_text : Type := VersionText {
  t_major : string;
  t_minor : string;
  t_patch : string;
  t_suffix : option (channel * string)
}.

(** A non-empty run of digits. *)
Definition digits (s : string) : bool :=
  negb (String.eqb s "") && Str.all is_digit s.

Definition well_formed (t : version_text) : bool :=
  digits (t_major t) && digits (t_minor t) && digits (t_patch t) &&
  match t_suffix t with
  | None => true
  | Some (_, n) => Str.all is_digit n
  end.

(** A text of at most [max_str_digits] characters: a digit run within the
    limit of [int]. *)
Definition fits (s : string) : bool :=
  (Z.of_nat (String.length s) <=? max_str_digits)%Z.

(** Every number of the version text is within the limit of [int]. *)
Definition bounded (t : version_text) : bool :=
  fits (t_major t) && fits (t_minor t) && fits (t_patch t) &&
  match t_suffix t with
  | None => true
  | Some (_, n) => fits n
  end.

Definition marker (ch : channel) : string :=
  match ch with
  | Alpha => "a"
  | RC => "rc"
  end.

Definition suffix_text (o : option (channel * string)) : string :=
  match o with
  | None => ""
  | Some (ch, n) => marker ch ++ n
  end.

Definition render (t : version_text) : string :=
  t_major t ++ "." ++ t_minor t ++ "." ++ t_patch t
  ++ suffix_text (t_suffix t).

(** The number a digit run denotes, by the weight of each position. *)
Fixpoint value (s : string) : Z :=
  match s with
  | "" => 0
  | String a s' =>
      (Z.of_nat (nat_of_ascii a) - 48) * 10 ^ Z.of_nat (String.length s')
      + value s'
  end.

Definition stage (t : version_text) : option channel :=
  option_map fst (t_suffix t).

Definition build (t : version_text) : Z :=
  match t_suffix t with
  | None => 0
  | Some (_, n) => value n
  end.

(** alpha < rc < stable *)
Inductive stage_lt : option channel -> option channel -> Prop :=
| alpha_rc : stage_lt (Some Alpha) (Some RC)
| alpha_stable : stage_lt (Some Alpha) None
| rc_stable : stage_lt (Some RC) None.

(** Semantic-version order with channels: major, minor and patch as numbers,
    then the channel, then the build number. *)
Definition precedes (x y : version_text) : Prop :=
  (value (t_major x) < value (t_major y))%Z \/
  value (t_major x) = value (t_major y) /\
  ((value (t_minor x) < value (t_minor y))%Z \/
   value (t_minor x) = value (t_minor y) /\
   ((value (t_patch x) < value (t_patch y))%Z \/
    value (t_patch x) = value (t_patch y) /\
    (stage_lt (stage x) (stage y) \/
     stage x = stage y /\ (build x < build y)%Z))).

Definition rank (o : option channel) : Z :=
  match o with
  | Some Alpha => 0
  | Some RC => 1
  | None => 2
  end.

Definition key_of (t : version_text) : VersionKey :=
  (value (t_major t), value (t_minor t), value (t_patch t),
   rank (stage t), build t).

Definition sentinel : VersionKey := (0, 0, 0, 1, 0)%Z.

(** [parse_version(v) > parse_version(w)] *)
Definition version_gt (v w : string) : bool :=
  match parse_version v, parse_version w with
  | Some x, Some y => key_gtb x y
  | _, _ => false
  end.

(** The groups of a match of [version_re] on the text [t], most recent
    first; a group that took no part in the match is absent. *)
Definition groups_of (t : version_text) : captures :=
  (match t_suffix t with
   | None => []
   | Some (ch, "") => [(4, marker ch)]
   | Some (ch, n) => [(5, n); (4, marker ch)]
   end ++ [(3, t_patch t); (2, t_minor t); (1, t_major t)])%list.

(** A text ends at the end of the string or before its last newline. *)
Definition line_end (nl : string) : Prop :=
  nl = "" \/ nl = String "010"%char "".

(** Major, minor and patch of a version text, as numbers. *)
Definition numbers (t : version_text) : Z * Z * Z :=
  (value (t_major t), value (t_minor t), value (t_patch t)).

(** Order of major.minor.patch triples. *)
Definition triple_lt (x y : Z * Z * Z) : Prop :=
  let '(a1, b1, c1) := x in
  let '(a2, b2, c2) := y in
  (a1 < a2 \/ a1 = a2 /\ (b1 < b2 \/ b1 = b2 /\ c1 < c2))%Z.

(** ** Order of candidates and sample data *)

(** [x >= y] on candidates: not [x < y]. *)
Definition cand_ge (x y : Candidate) : Prop := cand_ltb x y = false.

(** [x] stands somewhere in front of [y] in [l]. *)
Definition before {A : Type} (x y : A) (l : list A) : Prop :=
  exists l1 l2 l3, l = (l1 ++ x :: l2 ++ y :: l3)%list.

(** A bucket listing with one [Contents] element per key. *)
Definition listing_of (keys : list string) : string :=
  "<ListBucketResult><Name>therock-nightly-tarball</Name>"
  ++ "<Prefix>therock-dist-linux-gfx1151-7</Prefix>"
  ++ "<IsTruncated>false</IsTruncated>"
  ++ String.concat ""
       (map (fun key =>
               "<Contents><Key>" ++ key
               ++ "</Key><Size>1024</Size></Contents>") keys)
  ++ "</ListBucketResult>".

Definition key_stable : string := "therock-dist-linux-gfx1151-7.0.0.tar.gz".
Definition key_rc : string := "therock-dist-linux-gfx1151-7.0.1rc2.tar.gz".
Definition key_alpha : string := "therock-dist-linux-gfx1151-7.1.0a1.tar.gz".
Definition key_other : string := "therock-dist-windows-gfx1151-7.2.0.tar.gz".

Definition defaults : CommandLine :=
  {| opt_platform := None; opt_target := None; opt_count := None;
     opt_quiet := false |}.

(** Two keys of the same version. *)
Definition tie_first : Candidate :=
  ((7, 0, 0, 2, 0)%Z, "therock-dist-linux-gfx1151-7.0.0.tar.gz").
Definition tie_second : Candidate :=
  ((7, 0, 0, 2, 0)%Z,
   "therock-dist-linux-gfx1151-7.0.0-old/therock-dist-linux-gfx1151-7.0.0.tar.gz").

Definition five_keys : list string :=
  [key_stable; "therock-dist-linux-gfx1151-7.10.0.tar.gz"; key_rc;
   "therock-dist-linux-gfx1151-7.9.0rc1.tar.gz"; key_alpha].

Definition five_candidates : list Candidate :=
  [((7, 0, 0, 2, 0)%Z, key_stable);
   ((7, 10, 0, 2, 0)%Z, "therock-dist-linux-gfx1151-7.10.0.tar.gz");
   ((7, 0, 1, 1, 2)%Z, key_rc);
   ((7, 9, 0, 1, 1)%Z, "therock-dist-linux-gfx1151-7.9.0rc1.tar.gz");
   ((7, 1, 0, 0, 1)%Z, key_alpha)].

Definition with_count (n : Z) : CommandLine :=
  {| opt_platform := None; opt_target := None; opt_count := Some n;
     opt_quiet := true |}.

Definition args_with_count (n : Z) : Args :=
  {| platform := "linux"; target := "gfx1151"; count := n; quiet := true |}.

(** All the orders of a list. *)
Fixpoint interleave {A : Type} (x : A) (l : list A) : list (list A) :=
  match l with
  | [] => [[x]]
  | y :: l' => (x :: l) :: map (cons y) (interleave x l')
  end.

Fixpoint orders {A : Type} (l : list A) : list (list A) :=
  match l with
  | [] => [[]]
  | x :: l' => flat_map (interleave x) (orders l')
  end.

(** ** More of the script's data: paddings, keys and listings *)

(** The suffix carries a build number: [a<N>] or [rc<N>]. *)
Definition numbered (t : version_text) : bool :=
  match t_suffix t with
  | None => true
  | Some (_, n) => digits n
  end.

(** [n] zeros. *)
Fixpoint zeros (n : nat) : string :=
  match n with
  | O => ""
  | S n' => String "0" (zeros n')
  end.

(** The version text with zeros in front of its numbers. *)
Definition padded (z1 z2 z3 z4 : nat) (t : version_text) : version_text :=
  {| t_major := zeros z1 ++ t_major t;
     t_minor := zeros z2 ++ t_minor t;
     t_patch := zeros z3 ++ t_patch t;
     t_suffix :=
       match t_suffix t with
       | None => None
       | Some (ch, n) => Some (ch, zeros z4 ++ n)
       end |}.

Definition newline : string := String "010"%char "".

(** [\d+\.\d+\.\d+(?:a\d+|rc\d+)?], the group of the filename pattern. *)
Definition version_body : regex :=
  Plus digit >> Lit "." >> Plus digit >> Lit "." >> Plus digit >>
  Opt (Alt (Lit "a" >> Plus digit) (Lit "r" >> Lit "c" >> Plus digit)).

(** The key [pre ++ stem-version.tar.gz], possibly followed by a newline. *)
Definition key_shape (prefix key : string) (t : version_text) : Prop :=
  exists pre nl,
    line_end nl /\
    key = pre ++ Str.drop_last2 prefix ++ "-" ++ render t ++ ".tar.gz" ++ nl.

(** [pattern.search(key)] finds a match. *)
Definition retained (pattern : regex) (key : string) : bool :=
  match search pattern key with
  | Some _ => true
  | None => false
  end.

(** A candidate as the loop adds it. *)
Definition candidate_ok (prefix : string) (c : Candidate) : Prop :=
  exists t,
    well_formed t = true /\ numbered t = true /\ bounded t = true /\
    key_shape prefix (snd c) t /\ fst c = key_of t.

(** [[^<]] *)
Definition not_lt (a : ascii) : bool := negb (Ascii.eqb a "<").

(** A text a key element can hold: not empty, without [<]. *)
Definition key_text (k : string) : bool :=
  negb (String.eqb k "") && Str.all not_lt k.

(** Markup in which no key element opens: no [<K], and no [<] at its end. *)
Fixpoint no_open (u : string) : bool :=
  match u with
  | "" => true
  | String a u' =>
      if Ascii.eqb a "<" then
        match u' with
        | "" => false
        | String b _ => negb (Ascii.eqb b "K") && no_open u'
        end
      else no_open u'
  end.

(** A listing: key elements, each after some markup, and closing markup. *)
Fixpoint document (parts : list (string * string)) (closing : string)
  : string :=
  match parts with
  | [] => closing
  | (markup, key) :: parts' =>
      markup ++ "<Key>" ++ key ++ "</Key>" ++ document parts' closing
  end.

(** The key of version [t] under the prefix: [stem-version.tar.gz]. *)
Definition key_for (prefix : string) (t : version_text) : string :=
  Str.drop_last2 prefix ++ "-" ++ render t ++ ".tar.gz".

(** The URL [main] opens. *)
Definition query_url (args : Args) : string :=
  S3_BASE ++ "?prefix="
  ++ prefix_of (platform args) (s3_target_of (target args)).

(** The command line with [-q] given or not. *)
Definition set_quiet (q : bool) (cl : CommandLine) : CommandLine :=
  {| opt_platform := opt_platform cl; opt_target := opt_target cl;
     opt_count := opt_count cl; opt_quiet := q |}.

(** A listing item: the markup in front of a key element and the version of
    the key. *)
Definition item : Type := (string * version_text)%type.

Definition item_ok (it : item) : Prop :=
  no_open (fst it) = true /\
  well_formed (snd it) = true /\ numbered (snd it) = true /\
  bounded (snd it) = true.

Definition listing (prefix : string) (items : list item) (closing : string)
  : string :=
  document (map (fun it => (fst it, key_for prefix (snd it))) items) closing.

Definition candidate_of (prefix : string) (it : item) : Candidate :=
  (key_of (snd it), key_for prefix (snd it)).

(** A sample listing. *)
Definition sample_items : list item :=
  [("<Contents>", VersionText "7" "0" "0" None);
   ("<Size>1</Size></Contents><Contents>",
    VersionText "6" "4" "2" (Some (RC, "1")));
   ("</Contents><Contents>", VersionText "7" "1" "0" (Some (Alpha, "3")))].

Definition sample_prefix : string := prefix_of "linux" "gfx1151".

Definition sample_data : string :=
  listing sample_prefix sample_items "</Contents></ListBucketResult>".

Definition sample_candidates : list Candidate :=
  map (candidate_of sample_prefix) sample_items.

(** A listing with one key, whose major version has 4301 digits. *)
Definition overlong_key : string :=
  "therock-dist-linux-gfx1151-" ++ zeros 4300 ++ "1.0.0.tar.gz".

Definition overlong_data : string := "<Key>" ++ overlong_key ++ "</Key>".

Definition linux_args (n : Z) (q : bool) : Args :=
  {| platform := "linux"; target := "gfx1151"; count := n; quiet := q |}.

Definition linux_cl (n : Z) (q : bool) : CommandLine :=
  {| opt_platform := None; opt_target := None; opt_count := Some n;
     opt_quiet := q |}.

(** ** Facts about strings *)

Module StrFacts.

Lemma app_assoc (a b c : string) : (a ++ b) ++ c = a ++ (b ++ c).
Proof. induction a as [|x a IH]; simpl; [reflexivity | now rewrite IH]. Qed.

Lemma app_nil_r (a : string) : a ++ "" = a.
Proof. induction a as [|x a IH]; simpl; [reflexivity | now rewrite IH]. Qed.

Lemma length_app (a b : string) :
  String.length (a ++ b) = String.length a + String.length b.
Proof. induction a as [|x a IH]; simpl; [reflexivity | now rewrite IH]. Qed.

Lemma take_app (u v : string) : Str.take (String.length u) (u ++ v) = u.
Proof. induction u as [|x u IH]; simpl; [now destruct v | now rewrite IH]. Qed.

Lemma taken_app (u v : string) : Str.taken (u ++ v) v = u.
Proof.
  unfold Str.taken. rewrite length_app.
  replace (String.length u + String.length v - String.length v)
    with (String.length u) by lia.
  apply take_app.
Qed.

Lemma taken_cons (a : ascii) (v : string) :
  Str.taken (String a v) v = String a "".
Proof. exact (taken_app (String a "") v). Qed.

Lemma all_app (p : ascii -> bool) (u v : string) :
  Str.all p (u ++ v) = Str.all p u && Str.all p v.
Proof.
  induction u as [|x u IH]; simpl; [reflexivity|].
  now rewrite IH, andb_assoc.
Qed.

End StrFacts.

(** ** The matcher finds only what the pattern describes *)

Module ReFacts.

Import StrFacts.

Section LoopSound.
Context {A : Type}.
Variable step : string -> captures -> cont A -> option A.
Variable R : string -> string -> captures -> captures -> Prop.
Variable k : cont A.

Hypothesis step_sound :
  forall s c (k' : cont A) x,
    step s c k' = Some x ->
    exists s1 s2 c', s = s1 ++ s2 /\ R s1 s2 c c' /\ k' s2 c' = Some x.

Lemma plus_loop_sound (n : nat) :
  forall s c x,
    plus_loop step k n s c = Some x ->
    exists s1 s2 c', s = s1 ++ s2 /\ iter R s1 s2 c c' /\ k s2 c' = Some x.
Proof.
  induction n as [|n IH]; intros s c x H; simpl in H;
    apply step_sound in H; destruct H as (u & t & cm & -> & Hu & H).
  - exists u, t, cm. auto using iter_last.
  - destruct (Nat.ltb _ _).
    + destruct (plus_loop step k n t cm) as [y|] eqn:E.
      * inversion H; subst y.
        apply IH in E. destruct E as (v & s2 & c' & -> & Hv & Hk).
        exists (u ++ v), s2, c'. rewrite app_assoc.
        eauto using iter_next.
      * exists u, t, cm. auto using iter_last.
    + exists u, t, cm. auto using iter_last.
Qed.
End LoopSound.

Lemma run_sound {A : Type} (r : regex) :
  forall s c (k : cont A) x,
    run r s c k = Some x ->
    exists s1 s2 c', s = s1 ++ s2 /\ sem r s1 s2 c c' /\ k s2 c' = Some x.
Proof.
  induction r as [|a|p|r1 IH1 r2 IH2|r1 IH1 r2 IH2|r IH|r IH|i r IH|];
    intros s c k x H; simpl in H.
  - exists "", s, c. simpl. auto.
  - destruct s as [|b s]; [discriminate|].
    destruct (Ascii.eqb_spec a b); [subst b | discriminate].
    exists (String a ""), s, c. simpl. auto.
  - destruct s as [|b s]; [discriminate|].
    destruct (p b) eqn:E; [|discriminate].
    exists (String b ""), s, c. simpl. eauto 10.
  - apply IH1 in H. destruct H as (u & t & cm & -> & Hu & H).
    apply IH2 in H. destruct H as (v & s2 & c' & -> & Hv & H).
    exists (u ++ v), s2, c'. rewrite app_assoc. simpl. eauto 10.
  - destruct (run r1 s c k) as [y|] eqn:E.
    + inversion H; subst y. apply IH1 in E.
      destruct E as (s1 & s2 & c' & -> & Hs & Hk).
      exists s1, s2, c'. simpl. auto.
    + apply IH2 in H. destruct H as (s1 & s2 & c' & -> & Hs & Hk).
      exists s1, s2, c'. simpl. auto.
  - destruct (run r s c k) as [y|] eqn:E.
    + inversion H; subst y. apply IH in E.
      destruct E as (s1 & s2 & c' & -> & Hs & Hk).
      exists s1, s2, c'. simpl. auto.
    + exists "", s, c. simpl. auto.
  - apply plus_loop_sound with (R := sem r) in H; [exact H|].
    intros s0 c0 k' x0. apply IH.
  - apply IH in H. destruct H as (s1 & s2 & c' & -> & Hs & Hk).
    rewrite taken_app in Hk.
    exists s1, s2, ((i, s1) :: c'). simpl. eauto.
  - exists "", s, c. simpl.
    destruct s as [|b s]; [auto 10|].
    destruct b as [[] [] [] [] [] [] [] []]; simpl in H; try discriminate.
    destruct s; [auto 10 | discriminate].
Qed.

(** A successful [re.match] is a match of the pattern. *)
Lemma re_match_sound (r : regex) (v : string) (m : match_obj) :
  re_match r v = Some m ->
  exists s1, v = s1 ++ rest m /\ sem r s1 (rest m) [] (caps m).
Proof.
  unfold re_match. intros H. apply run_sound in H.
  destruct H as (s1 & s2 & c' & -> & Hs & Hk).
  unfold accept in Hk. inversion Hk; subst m. simpl. eauto.
Qed.

Section Fuel.
Context {A : Type}.
Variable step : string -> captures -> cont A -> option A.
Hypothesis step_local : local step.

Lemma plus_loop_agree (n : nat) :
  forall s c k1 k2,
    agree (String.length s) k1 k2 ->
    plus_loop step k1 n s c = plus_loop step k2 n s c.
Proof.
  induction n as [|n IH]; intros s c k1 k2 H; cbn [plus_loop];
    apply step_local; intros s' c' Hs'.
  - now apply H.
  - destruct (Nat.ltb_spec (String.length s') (String.length s)).
    + rewrite (H s' c') by assumption.
      rewrite (IH s' c' k1 k2); [reflexivity|].
      intros s0 c0 Hs0. apply H. lia.
    + now apply H.
Qed.

(** The loop never runs out of iterations: any bound from the length of the
    input on gives the same result. *)
Lemma plus_loop_fuel (k : cont A) (n : nat) :
  forall m s c,
    String.length s <= n -> String.length s <= m ->
    plus_loop step k n s c = plus_loop step k m s c.
Proof.
  induction n as [|n IH]; intros m s c Hn Hm; destruct m as [|m];
    cbn [plus_loop]; apply step_local; intros s' c' Hs'.
  - reflexivity.
  - destruct (Nat.ltb_spec (String.length s') (String.length s));
      [lia | reflexivity].
  - destruct (Nat.ltb_spec (String.length s') (String.length s));
      [lia | reflexivity].
  - destruct (Nat.ltb_spec (String.length s') (String.length s));
      [|reflexivity].
    rewrite (IH m s' c') by lia. reflexivity.
Qed.
End Fuel.

Lemma run_local {A : Type} (r : regex) :
  local (fun s c (k : cont A) => run r s c k).
Proof.
  induction r as [|a|p|r1 IH1 r2 IH2|r1 IH1 r2 IH2|r IH|r IH|i r IH|];
    intros s c k1 k2 H; cbn [run].
  - apply H. lia.
  - destruct s as [|b s]; [reflexivity|].
    destruct (Ascii.eqb a b); [|reflexivity]. apply H. simpl. lia.
  - destruct s as [|b s]; [reflexivity|].
    destruct (p b); [|reflexivity]. apply H. simpl. lia.
  - apply IH1. intros s' c' Hs'. apply IH2.
    intros s0 c0 H0. apply H. lia.
  - rewrite (IH1 s c k1 k2 H), (IH2 s c k1 k2 H). reflexivity.
  - rewrite (IH s c k1 k2 H), (H s c) by lia. reflexivity.
  - apply plus_loop_agree; [exact IH | exact H].
  - apply IH. intros s' c' Hs'. now apply H.
  - destruct s as [|b s]; [apply H; simpl; lia|].
    destruct b as [[] [] [] [] [] [] [] []]; try reflexivity.
    destruct s; [apply H; simpl; lia | reflexivity].
Qed.

(** [r+] with any bound from the length of the input on. *)
Lemma run_plus_fuel {A : Type} (r : regex) (s : string) (c : captures)
  (k : cont A) (n : nat) :
  String.length s <= n ->
  plus_loop (fun s c k' => run r s c k') k n s c = run (Plus r) s c k.
Proof.
  intros H. cbn [run]. apply plus_loop_fuel; [apply run_local | lia | lia].
Qed.

End ReFacts.

(** ** The matcher on digit runs and on version texts *)

Module VersionMatch.

Import StrFacts ReFacts.

Lemma run_cat {A} r1 r2 s c (k : cont A) :
  run (r1 >> r2) s c k = run r1 s c (fun s' c' => run r2 s' c' k).
Proof. reflexivity. Qed.

Lemma run_lit {A} a b s c (k : cont A) :
  run (Lit a) (String b s) c k = if Ascii.eqb a b then k s c else None.
Proof. reflexivity. Qed.

Lemma run_grp {A} i r s c (k : cont A) :
  run (Grp i r) s c k =
  run r s c (fun s' c' => k s' ((i, Str.taken s s') :: c')).
Proof. reflexivity. Qed.

Lemma run_opt_taken {A} r s c (k : cont A) x :
  run r s c k = Some x -> run (Opt r) s c k = Some x.
Proof. intros H. simpl. now rewrite H. Qed.

Lemma run_opt_skipped {A} r s c (k : cont A) :
  run r s c k = None -> run (Opt r) s c k = k s c.
Proof. intros H. simpl. now rewrite H. Qed.

Lemma run_cls_fails {A} p s c (k : cont A) :
  Str.head_fails p s = true -> run (Cls p) s c k = None.
Proof.
  destruct s as [|a s]; simpl; [reflexivity|].
  now destruct (p a).
Qed.

Section ClassLoop.
Context {A : Type}.
Variable p : ascii -> bool.
Variable step : string -> captures -> cont A -> option A.
Variable k : cont A.

Hypothesis step_takes :
  forall a s c (k' : cont A), p a = true -> step (String a s) c k' = k' s c.
Hypothesis step_fails :
  forall s c (k' : cont A), Str.head_fails p s = true -> step s c k' = None.

Lemma plus_loop_fails s c n :
  Str.head_fails p s = true -> plus_loop step k n s c = None.
Proof. intros H. destruct n; cbn [plus_loop]; now apply step_fails. Qed.

(** A greedy class loop takes the whole run when the rest of the pattern
    accepts what follows it. *)
Lemma plus_loop_greedy rest c x :
  Str.head_fails p rest = true ->
  k rest c = Some x ->
  forall d n,
    d <> "" -> Str.all p d = true -> String.length d <= n ->
    plus_loop step k n (d ++ rest) c = Some x.
Proof.
  intros Hrest Hk d.
  induction d as [|a d IH]; intros n Hne Hall Hn; [congruence|].
  simpl in Hall. apply andb_true_iff in Hall. destruct Hall as [Ha Hd].
  destruct n as [|n]; [simpl in Hn; lia|].
  cbn [plus_loop append]. rewrite step_takes by assumption.
  replace (Nat.ltb _ _) with true
    by (symmetry; apply Nat.ltb_lt; simpl; lia).
  destruct d as [|b d].
  - cbn [append]. now rewrite plus_loop_fails.
  - rewrite IH; [reflexivity|discriminate|assumption|simpl in *; lia].
Qed.
End ClassLoop.

Lemma run_plus_cls {A} p d rest c (k : cont A) x :
  d <> "" -> Str.all p d = true ->
  Str.head_fails p rest = true ->
  k rest c = Some x ->
  run (Plus (Cls p)) (d ++ rest) c k = Some x.
Proof.
  intros Hne Hall Hrest Hk.
  change (plus_loop (fun s c k' => run (Cls p) s c k') k
            (String.length (d ++ rest)) (d ++ rest) c = Some x).
  apply plus_loop_greedy with (p := p); auto.
  - intros a s c0 k' Ha. simpl. now rewrite Ha.
  - intros s c0 k'. apply run_cls_fails.
  - rewrite length_app. lia.
Qed.

Lemma digits_spec (d : string) :
  digits d = true <-> d <> "" /\ Str.all is_digit d = true.
Proof.
  unfold digits. rewrite andb_true_iff, negb_true_iff, String.eqb_neq.
  reflexivity.
Qed.

Lemma run_group_digits {A} i d rest c (k : cont A) x :
  digits d = true ->
  Str.head_fails is_digit rest = true ->
  k rest ((i, d) :: c) = Some x ->
  run (Grp i (Plus digit)) (d ++ rest) c k = Some x.
Proof.
  intros Hd Hrest Hk. apply digits_spec in Hd. destruct Hd as [Hne Hall].
  rewrite run_grp. apply run_plus_cls; auto.
  now rewrite taken_app.
Qed.

(** [int] reads a digit run as the number it denotes. *)
Lemma int_from_value (s : string) :
  Str.all is_digit s = true ->
  forall acc,
    int_from acc s
    = Some (acc * 10 ^ Z.of_nat (String.length s) + value s)%Z.
Proof.
  induction s as [|a s IH]; intros Hall acc;
    cbn [int_from value String.length].
  - f_equal. change (Z.of_nat 0) with 0%Z. rewrite Z.pow_0_r. lia.
  - simpl in Hall. apply andb_true_iff in Hall. destruct Hall as [Ha Hs].
    rewrite Ha, IH by assumption. f_equal.
    rewrite Nat2Z.inj_succ, Z.pow_succ_r by lia. ring.
Qed.

(** [int] on a digit run: its value, or an error past the limit. *)
Lemma int_digits (s : string) :
  digits s = true -> int s = if fits s then Some (value s) else None.
Proof.
  intros H. apply digits_spec in H. destruct H as [Hne Hall].
  destruct s as [|a s]; [congruence|].
  unfold int, fits.
  destruct (Z.ltb_spec max_str_digits (Z.of_nat (String.length (String a s))));
    destruct (Z.leb_spec (Z.of_nat (String.length (String a s)))
                max_str_digits); try lia; [reflexivity|].
  rewrite int_from_value by assumption. reflexivity.
Qed.

Lemma run_alt_left {A} r1 r2 s c (k : cont A) x :
  run r1 s c k = Some x -> run (Alt r1 r2) s c k = Some x.
Proof. intros H. simpl. now rewrite H. Qed.

Lemma run_alt_right {A} r1 r2 s c (k : cont A) :
  run r1 s c k = None -> run (Alt r1 r2) s c k = run r2 s c k.
Proof. intros H. simpl. now rewrite H. Qed.

Lemma run_eos_line_end {A} nl c (k : cont A) :
  line_end nl -> run Eos nl c k = k nl c.
Proof. intros [-> | ->]; reflexivity. Qed.

Lemma line_end_no_digit nl : line_end nl -> Str.head_fails is_digit nl = true.
Proof. intros [-> | ->]; reflexivity. Qed.

Lemma run_build {A} n nl c (k : cont A) x :
  Str.all is_digit n = true -> line_end nl ->
  k nl (match n with "" => c | _ => (5, n) :: c end) = Some x ->
  run (Opt (Grp 5 (Plus digit)) >> Eos) (n ++ nl) c k = Some x.
Proof.
  intros Hn Hnl Hk. rewrite run_cat. destruct n as [|b n].
  - cbn [append]. rewrite run_opt_skipped.
    + now rewrite run_eos_line_end.
    + rewrite run_grp. destruct Hnl; subst nl; reflexivity.
  - apply run_opt_taken. apply run_group_digits.
    + apply digits_spec. split; [discriminate|assumption].
    + now apply line_end_no_digit.
    + now rewrite run_eos_line_end.
Qed.

Lemma run_suffix {A} suf nl c (k : cont A) x :
  match suf with Some (_, n) => Str.all is_digit n | None => true end = true ->
  line_end nl ->
  k nl (match suf with
        | None => []
        | Some (ch, "") => [(4, marker ch)]
        | Some (ch, n) => [(5, n); (4, marker ch)]
        end ++ c)%list = Some x ->
  run (Opt (Grp 4 (Alt (Lit "a") (Lit "r" >> Lit "c"))) >>
       Opt (Grp 5 (Plus digit)) >> Eos) (suffix_text suf ++ nl) c k = Some x.
Proof.
  intros Hsuf Hnl Hk. rewrite run_cat.
  destruct suf as [[ch n]|]; cbn [suffix_text].
  - apply run_opt_taken. rewrite run_grp, app_assoc.
    destruct ch; cbn [marker append].
    + apply run_alt_left. rewrite run_lit. cbn [Ascii.eqb Bool.eqb].
      rewrite taken_cons. apply run_build; auto.
      destruct n; exact Hk.
    + rewrite run_alt_right by reflexivity.
      rewrite run_cat, !run_lit. cbn [Ascii.eqb Bool.eqb].
      change (String "r" (String "c" (n ++ nl))) with ("rc" ++ (n ++ nl)).
      rewrite taken_app. apply run_build; auto.
      destruct n; exact Hk.
  - cbn [append]. rewrite run_opt_skipped.
    + apply (run_build ""); auto.
    + rewrite run_grp. destruct Hnl; subst nl; reflexivity.
Qed.

Lemma match_rendered (t : version_text) (nl : string) :
  well_formed t = true -> line_end nl ->
  re_match version_re (render t ++ nl) = Some (MatchObj nl (groups_of t)).
Proof.
  destruct t as [ma mi pa suf]. unfold well_formed, render, groups_of.
  cbn [t_major t_minor t_patch t_suffix].
  rewrite !andb_true_iff. intros [[[Hma Hmi] Hpa] Hsuf] Hnl.
  rewrite !app_assoc. cbn [append].
  unfold re_match, version_re.
  rewrite run_cat. apply run_group_digits; [assumption|reflexivity|].
  rewrite run_cat, run_lit. cbn [Ascii.eqb Bool.eqb].
  rewrite run_cat. apply run_group_digits; [assumption|reflexivity|].
  rewrite run_cat, run_lit. cbn [Ascii.eqb Bool.eqb].
  rewrite run_cat. apply run_group_digits; [assumption| |].
  - destruct suf as [[[] n]|]; try reflexivity.
    now apply line_end_no_digit.
  - apply run_suffix; auto.
Qed.

Lemma parse_rendered (t : version_text) (nl : string) :
  well_formed t = true -> line_end nl ->
  parse_version (render t ++ nl)
  = if bounded t then Some (key_of t) else None.
Proof.
  intros Hwf Hnl. unfold parse_version.
  rewrite match_rendered by assumption.
  destruct t as [ma mi pa suf]. unfold well_formed in Hwf.
  cbn [t_major t_minor t_patch t_suffix] in Hwf.
  rewrite !andb_true_iff in Hwf. destruct Hwf as [[[Hma Hmi] Hpa] Hsuf].
  unfold group, groups_of, key_of, stage, build, bounded.
  cbn [caps t_major t_minor t_patch t_suffix].
  assert (Hn : forall b n, Str.all is_digit (String b n) = true ->
                           int (String b n)
                           = if fits (String b n)
                             then Some (value (String b n)) else None).
  { intros b n H. apply int_digits, digits_spec. split; [discriminate|exact H]. }
  destruct suf as [[[] [|b n]]|];
    cbn [app lookup Nat.eqb int_group int_or_0 Str.truthy negb marker
         String.eqb Ascii.eqb Bool.eqb rank option_map fst];
    rewrite ?Hn by assumption;
    rewrite (int_digits ma Hma), (int_digits mi Hmi), (int_digits pa Hpa);
    destruct (fits ma), (fits mi), (fits pa); cbn [bind andb];
    try reflexivity;
    try (destruct (fits (String b n)); reflexivity).
Qed.

Lemma iter_class (p : ascii -> bool)
  (R : string -> string -> captures -> captures -> Prop) :
  (forall s1 s2 c c',
      R s1 s2 c c' -> exists a, p a = true /\ s1 = String a "" /\ c' = c) ->
  forall d s2 c c',
    iter R d s2 c c' -> d <> "" /\ Str.all p d = true /\ c' = c.
Proof.
  intros HR d s2 c c' H.
  induction H as [s1 s2 c c' H | u v s2 c cm c' H _ IH];
    apply HR in H; destruct H as (a & Ha & -> & ->).
  - simpl. rewrite Ha. repeat split; discriminate.
  - destruct IH as (_ & Hv & ->). simpl. rewrite Ha, Hv.
    repeat split; discriminate.
Qed.

Lemma sem_digits_group i d s2 c c' :
  sem (Grp i (Plus digit)) d s2 c c' -> digits d = true /\ c' = (i, d) :: c.
Proof.
  intros (cm & H & ->). apply iter_class with (p := is_digit) in H.
  - destruct H as (Hne & Hall & ->). split; [|reflexivity].
    apply digits_spec. auto.
  - intros s1 s3 c0 c0' Hs. exact Hs.
Qed.

Lemma sem_version_re s1 s2 c c' :
  sem version_re s1 s2 c c' ->
  exists t, well_formed t = true /\ s1 = render t /\ line_end s2.
Proof.
  unfold version_re. intros H.
  destruct H as (d1 & r1 & c1 & -> & H1 & H).
  destruct H as (p1 & r2 & c1' & -> & [-> ->] & H).
  destruct H as (d2 & r3 & c2 & -> & H2 & H).
  destruct H as (p2 & r4 & c2' & -> & [-> ->] & H).
  destruct H as (d3 & r5 & c3 & -> & H3 & H).
  destruct H as (ch & r6 & c4 & -> & H4 & H).
  destruct H as (n & e & c5 & -> & H5 & (-> & -> & He)).
  apply sem_digits_group in H1, H2, H3.
  destruct H1 as [D1 _], H2 as [D2 _], H3 as [D3 _].
  rewrite app_nil_r. cbn [append] in *.
  assert (Hn : Str.all is_digit n = true).
  { destruct H5 as [H5 | [-> _]]; [|reflexivity].
    apply sem_digits_group in H5. destruct H5 as [H5 _].
    now apply digits_spec in H5. }
  destruct H4 as [(cm & H4 & _) | [-> _]].
  - assert (Hch : exists k, ch = marker k).
    { destruct H4 as [[-> _] | (a & b & cm' & -> & [-> _] & [-> _])].
      - now exists Alpha.
      - now exists RC. }
    destruct Hch as [k ->].
    exists (VersionText d1 d2 d3 (Some (k, n))). unfold well_formed, render.
    cbn [t_major t_minor t_patch t_suffix suffix_text].
    rewrite D1, D2, D3, Hn. auto.
  - exists (VersionText d1 d2 (d3 ++ n) None). unfold well_formed, render.
    cbn [t_major t_minor t_patch t_suffix suffix_text append].
    rewrite D1, D2, app_nil_r. repeat split; [|exact He].
    apply digits_spec in D3. destruct D3 as [Hne Hall].
    cbn [andb]. rewrite andb_true_r. apply digits_spec. split.
    + destruct d3; [congruence | discriminate].
    + now rewrite all_app, Hall, Hn.
Qed.

(** The strings [version_re] matches, written out. *)
Lemma matches_version (v : string) :
  matches version_re v <->
  exists t nl, well_formed t = true /\ line_end nl /\ v = render t ++ nl.
Proof.
  split.
  - intros (s1 & s2 & c' & -> & H). apply sem_version_re in H.
    destruct H as (t & Hwf & -> & Hnl). eauto.
  - intros (t & nl & Hwf & Hnl & ->).
    pose proof (match_rendered t nl Hwf Hnl) as H.
    apply re_match_sound in H. destruct H as (s1 & Hv & H).
    exists s1, nl, (groups_of t). auto.
Qed.

Lemma matches_version_re_match (v : string) :
  matches version_re v <-> re_match version_re v <> None.
Proof.
  split.
  - intros H. apply matches_version in H.
    destruct H as (t & nl & Hwf & Hnl & ->).
    rewrite match_rendered by assumption. discriminate.
  - destruct (re_match version_re v) as [m|] eqn:E; [intros _|congruence].
    apply re_match_sound in E. destruct E as (s1 & -> & H).
    exists s1, (rest m), (caps m). auto.
Qed.

(** What [parse_version] does on every string: the sentinel when the pattern
    has no match, and else the numbers of the text it matched, or an error
    when one of them is over the limit of [int]. *)
Lemma parse_version_cases (v : string) :
  (~ matches version_re v /\ parse_version v = Some sentinel) \/
  (exists t nl,
      well_formed t = true /\ line_end nl /\ v = render t ++ nl /\
      parse_version v = if bounded t then Some (key_of t) else None).
Proof.
  destruct (re_match version_re v) as [m|] eqn:E.
  - right. assert (H : matches version_re v).
    { apply matches_version_re_match. congruence. }
    apply matches_version in H. destruct H as (t & nl & Hwf & Hnl & ->).
    exists t, nl. auto using parse_rendered.
  - left. split.
    + rewrite matches_version_re_match. congruence.
    + unfold parse_version. now rewrite E.
Qed.

End VersionMatch.

(** ** Version tuples in order *)

Module KeyOrder.

Import VersionMatch.

Lemma key_ltb_lex a1 b1 c1 d1 e1 a2 b2 c2 d2 e2 :
  key_ltb (a1, b1, c1, d1, e1) (a2, b2, c2, d2, e2) = true <->
  (a1 < a2 \/ a1 = a2 /\
   (b1 < b2 \/ b1 = b2 /\
    (c1 < c2 \/ c1 = c2 /\
     (d1 < d2 \/ d1 = d2 /\ e1 < e2))))%Z.
Proof.
  unfold key_ltb.
  destruct (Z.eqb_spec a1 a2); cbn [negb]; [|rewrite Z.ltb_lt; lia].
  destruct (Z.eqb_spec b1 b2); cbn [negb]; [|rewrite Z.ltb_lt; lia].
  destruct (Z.eqb_spec c1 c2); cbn [negb]; [|rewrite Z.ltb_lt; lia].
  destruct (Z.eqb_spec d1 d2); cbn [negb]; rewrite Z.ltb_lt; lia.
Qed.

Lemma key_eqb_eq (x y : VersionKey) : key_eqb x y = true <-> x = y.
Proof.
  destruct x as [[[[a1 b1] c1] d1] e1], y as [[[[a2 b2] c2] d2] e2].
  unfold key_eqb. rewrite !andb_true_iff, !Z.eqb_eq. split.
  - intros [[[[-> ->] ->] ->] ->]. reflexivity.
  - intros H. inversion H. auto.
Qed.

Lemma rank_lt (s1 s2 : option channel) :
  stage_lt s1 s2 <-> (rank s1 < rank s2)%Z.
Proof.
  split.
  - intros H. destruct H; simpl; lia.
  - destruct s1 as [[]|], s2 as [[]|]; simpl; intros H;
      try lia; constructor.
Qed.

Lemma rank_eq (s1 s2 : option channel) : s1 = s2 <-> rank s1 = rank s2.
Proof.
  split; [now intros ->|].
  destruct s1 as [[]|], s2 as [[]|]; simpl; intros H;
    try reflexivity; lia.
Qed.

(** The tuples of two version texts compare as the versions do. *)
Lemma key_of_order (x y : version_text) :
  key_ltb (key_of x) (key_of y) = true <-> precedes x y.
Proof.
  unfold key_of, precedes. rewrite key_ltb_lex.
  rewrite (rank_lt (stage x) (stage y)), (rank_eq (stage x) (stage y)).
  reflexivity.
Qed.

Lemma value_nonneg (s : string) :
  Str.all is_digit s = true -> (0 <= value s)%Z.
Proof.
  induction s as [|a s IH]; intros H; cbn [value]; [lia|].
  simpl in H. apply andb_true_iff in H. destruct H as [Ha Hs].
  unfold is_digit in Ha. apply andb_true_iff in Ha.
  destruct Ha as [Ha _]. apply Nat.leb_le in Ha.
  specialize (IH Hs).
  assert (0 <= 10 ^ Z.of_nat (String.length s))%Z by (apply Z.pow_nonneg; lia).
  nia.
Qed.

Lemma digits_nonneg (s : string) : digits s = true -> (0 <= value s)%Z.
Proof. intros H. apply digits_spec in H. apply value_nonneg, H. Qed.

End KeyOrder.

(** ** What [parse_version] returns *)

Module ParseFacts.

Import StrFacts ReFacts VersionMatch KeyOrder.

Lemma parse_unmatched (v : string) :
  ~ matches version_re v -> parse_version v = Some sentinel.
Proof.
  intros H.
  destruct (parse_version_cases v) as [[_ E] | (t & nl & Hwf & Hnl & Hv & _)].
  - exact E.
  - exfalso. apply H, matches_version. eauto.
Qed.

Lemma parse_text (t : version_text) :
  well_formed t = true ->
  parse_version (render t) = if bounded t then Some (key_of t) else None.
Proof.
  intros H. rewrite <- (app_nil_r (render t)) at 1.
  apply parse_rendered; [assumption | now left].
Qed.

Lemma parse_bounded (t : version_text) :
  well_formed t = true -> bounded t = true ->
  parse_version (render t) = Some (key_of t).
Proof. intros H B. now rewrite parse_text, B. Qed.

Lemma parse_overlong (t : version_text) :
  well_formed t = true -> bounded t = false ->
  parse_version (render t) = None.
Proof. intros H B. now rewrite parse_text, B. Qed.

Lemma numbers_nonneg (t : version_text) :
  well_formed t = true ->
  (0 <= value (t_major t) /\ 0 <= value (t_minor t) /\ 0 <= value (t_patch t))%Z.
Proof.
  unfold well_formed. rewrite !andb_true_iff. intros [[[H1 H2] H3] _].
  auto using digits_nonneg.
Qed.

(** The sentinel against the tuple of an alpha version. *)
Lemma sentinel_gt_alpha (t : version_text) (n : string) :
  well_formed t = true -> t_suffix t = Some (Alpha, n) ->
  key_gtb sentinel (key_of t) = true <-> numbers t = (0, 0, 0)%Z.
Proof.
  intros Hwf Hsuf. pose proof (numbers_nonneg t Hwf) as (H1 & H2 & H3).
  assert (Hn : (0 <= build t)%Z).
  { unfold build. rewrite Hsuf. apply value_nonneg.
    unfold well_formed in Hwf. rewrite Hsuf in Hwf.
    now apply andb_true_iff in Hwf. }
  unfold key_gtb, sentinel, key_of, numbers, stage.
  rewrite key_ltb_lex, Hsuf. cbn [option_map fst rank]. split.
  - intros H. f_equal; [f_equal|]; lia.
  - intros H. injection H as E1 E2 E3. lia.
Qed.

Lemma alpha_gt_sentinel (t : version_text) :
  well_formed t = true -> triple_lt (0, 0, 0)%Z (numbers t) ->
  key_gtb (key_of t) sentinel = true.
Proof.
  intros Hwf H. pose proof (numbers_nonneg t Hwf) as (H1 & H2 & H3).
  unfold key_gtb, sentinel, key_of. rewrite key_ltb_lex.
  unfold triple_lt, numbers in H. lia.
Qed.

End ParseFacts.

(** ** The order of candidates *)

Module CandOrder.

Import KeyOrder.

Lemma str_compare_refl (s : string) : String.compare s s = Eq.
Proof.
  induction s as [|a s IH]; simpl; [reflexivity|].
  unfold Ascii.compare. now rewrite N.compare_refl.
Qed.

Lemma str_compare_trans (s1 : string) :
  forall s2 s3,
    String.compare s1 s2 = Lt -> String.compare s2 s3 = Lt ->
    String.compare s1 s3 = Lt.
Proof.
  induction s1 as [|a s1 IH]; intros [|b s2] [|c s3]; simpl;
    try discriminate; try reflexivity.
  unfold Ascii.compare.
  destruct (N.compare_spec (N_of_ascii a) (N_of_ascii b)),
           (N.compare_spec (N_of_ascii b) (N_of_ascii c)),
           (N.compare_spec (N_of_ascii a) (N_of_ascii c));
    try discriminate; try lia; eauto.
Qed.

Lemma str_ltb_lt (s1 s2 : string) :
  String.ltb s1 s2 = true <-> String.compare s1 s2 = Lt.
Proof.
  unfold String.ltb. destruct (String.compare s1 s2); split;
    congruence.
Qed.

Lemma str_ltb_irrefl (s : string) : String.ltb s s = false.
Proof. unfold String.ltb. now rewrite str_compare_refl. Qed.

Lemma str_ltb_trans (s1 s2 s3 : string) :
  String.ltb s1 s2 = true -> String.ltb s2 s3 = true ->
  String.ltb s1 s3 = true.
Proof. rewrite !str_ltb_lt. apply str_compare_trans. Qed.

Lemma str_ltb_total (s1 s2 : string) :
  String.ltb s1 s2 = false -> String.ltb s2 s1 = false -> s1 = s2.
Proof.
  unfold String.ltb. rewrite (String.compare_antisym s2 s1).
  destruct (String.compare s1 s2) eqn:E; simpl; try discriminate.
  intros _ _. now apply String.compare_eq_iff.
Qed.

Lemma key_ltb_irrefl (x : VersionKey) : key_ltb x x = false.
Proof.
  destruct x as [[[[a b] c] d] e]. apply not_true_is_false.
  rewrite key_ltb_lex. lia.
Qed.

Lemma key_ltb_trans (x y z : VersionKey) :
  key_ltb x y = true -> key_ltb y z = true -> key_ltb x z = true.
Proof.
  destruct x as [[[[a1 b1] c1] d1] e1], y as [[[[a2 b2] c2] d2] e2],
           z as [[[[a3 b3] c3] d3] e3].
  rewrite !key_ltb_lex. lia.
Qed.

Lemma key_ltb_total (x y : VersionKey) :
  key_ltb x y = false -> key_ltb y x = false -> x = y.
Proof.
  destruct x as [[[[a1 b1] c1] d1] e1], y as [[[[a2 b2] c2] d2] e2].
  intros H1 H2. apply not_true_iff_false in H1, H2.
  rewrite key_ltb_lex in H1, H2.
  assert (a1 = a2 /\ b1 = b2 /\ c1 = c2 /\ d1 = d2 /\ e1 = e2)
    as (-> & -> & -> & -> & ->) by lia.
  reflexivity.
Qed.

(** [<] on candidates: the version tuple first, then the key string. *)
Lemma cand_ltb_lex (x y : Candidate) :
  cand_ltb x y = true <->
  key_ltb (fst x) (fst y) = true \/
  fst x = fst y /\ String.ltb (snd x) (snd y) = true.
Proof.
  unfold cand_ltb. destruct (key_eqb (fst x) (fst y)) eqn:E.
  - apply key_eqb_eq in E. rewrite E, key_ltb_irrefl. split.
    + auto.
    + intros [H | [_ H]]; [discriminate | exact H].
  - split; [auto|]. intros [H | [H _]]; [exact H|].
    apply key_eqb_eq in H. congruence.
Qed.

Lemma cand_ltb_irrefl (x : Candidate) : cand_ltb x x = false.
Proof.
  apply not_true_is_false. rewrite cand_ltb_lex.
  rewrite key_ltb_irrefl, str_ltb_irrefl. intros [H | [_ H]]; discriminate.
Qed.

Lemma cand_ltb_trans (x y z : Candidate) :
  cand_ltb x y = true -> cand_ltb y z = true -> cand_ltb x z = true.
Proof.
  rewrite !cand_ltb_lex. intros [H1 | [E1 H1]] [H2 | [E2 H2]].
  - left. eauto using key_ltb_trans.
  - left. now rewrite <- E2.
  - left. now rewrite E1.
  - right. split; [congruence | eauto using str_ltb_trans].
Qed.

Lemma cand_ltb_total (x y : Candidate) :
  cand_ltb x y = false -> cand_ltb y x = false -> x = y.
Proof.
  intros H1 H2. apply not_true_iff_false in H1, H2.
  rewrite cand_ltb_lex in H1, H2.
  destruct x as [k1 s1], y as [k2 s2]. cbn [fst snd] in *.
  assert (E : k1 = k2).
  { apply key_ltb_total; apply not_true_is_false; auto. }
  subst k2. f_equal.
  apply str_ltb_total; apply not_true_is_false; auto.
Qed.

Lemma cand_ltb_asym (x y : Candidate) :
  cand_ltb x y = true -> cand_ltb y x = false.
Proof.
  intros H. apply not_true_is_false. intros H'.
  pose proof (cand_ltb_trans x y x H H') as C.
  rewrite cand_ltb_irrefl in C. discriminate.
Qed.

Lemma cand_ge_trans (x y z : Candidate) :
  cand_ge x y -> cand_ge y z -> cand_ge x z.
Proof.
  unfold cand_ge. intros H1 H2. apply not_true_is_false. intros H3.
  destruct (cand_ltb y x) eqn:E.
  - pose proof (cand_ltb_trans y x z E H3). congruence.
  - pose proof (cand_ltb_total x y H1 E). subst y. congruence.
Qed.

Lemma cand_ge_antisym (x y : Candidate) :
  cand_ge x y -> cand_ge y x -> x = y.
Proof. apply cand_ltb_total. Qed.

End CandOrder.

(** ** The sort *)

Module SortFacts.

Import CandOrder.

Lemma insert_perm (x : Candidate) (l : list Candidate) :
  Permutation (x :: l) (insert x l).
Proof.
  induction l as [|y l IH]; cbn [insert]; [reflexivity|].
  destruct (cand_ltb y x); [|reflexivity].
  rewrite perm_swap. now apply perm_skip.
Qed.

Lemma stable_sort_perm (l : list Candidate) : Permutation l (stable_sort l).
Proof.
  induction l as [|x l IH]; cbn [stable_sort]; [reflexivity|].
  rewrite <- insert_perm. now apply perm_skip.
Qed.

Lemma sort_reverse_perm (l : list Candidate) :
  Permutation l (sort_reverse l).
Proof.
  unfold sort_reverse.
  rewrite <- Permutation_rev, <- stable_sort_perm.
  apply Permutation_rev.
Qed.

Lemma insert_ascending (x : Candidate) (l : list Candidate) :
  StronglySorted (fun a b => cand_ge b a) l ->
  StronglySorted (fun a b => cand_ge b a) (insert x l).
Proof.
  induction l as [|y l IH]; intros H; cbn [insert].
  - repeat constructor.
  - apply StronglySorted_inv in H. destruct H as [Hl Hy].
    destruct (cand_ltb y x) eqn:E.
    + constructor; [auto|].
      apply (Permutation_Forall (insert_perm x l)).
      constructor; [|exact Hy]. now apply cand_ltb_asym.
    + constructor; [now constructor|].
      constructor; [exact E|].
      apply Forall_impl with (2 := Hy). intros z Hz.
      now apply cand_ge_trans with y.
Qed.

Lemma stable_sort_ascending (l : list Candidate) :
  StronglySorted (fun a b => cand_ge b a) (stable_sort l).
Proof.
  induction l as [|x l IH]; cbn [stable_sort];
    [constructor | now apply insert_ascending].
Qed.

Section Reverse.
Context {A : Type}.
Variable R : A -> A -> Prop.

Lemma sorted_snoc (l : list A) (a : A) :
  StronglySorted R l -> Forall (fun b => R b a) l ->
  StronglySorted R (l ++ [a])%list.
Proof.
  induction l as [|b l IH]; intros Hl Ha; cbn [app].
  - repeat constructor.
  - apply StronglySorted_inv in Hl. destruct Hl as [Hl Hb].
    inversion Ha; subst. constructor; [auto|].
    apply Forall_app. auto.
Qed.

Lemma sorted_rev (l : list A) :
  StronglySorted (fun a b => R b a) l -> StronglySorted R (rev l).
Proof.
  induction l as [|a l IH]; intros H; cbn [rev]; [constructor|].
  apply StronglySorted_inv in H. destruct H as [Hl Ha].
  apply sorted_snoc; [auto|]. now apply Forall_rev.
Qed.

Lemma sorted_weaken (R' : A -> A -> Prop) (l : list A) :
  (forall a b, R a b -> R' a b) ->
  StronglySorted R l -> StronglySorted R' l.
Proof.
  intros HR. induction 1 as [|a l _ IH Ha]; constructor; [exact IH|].
  apply Forall_impl with (2 := Ha). auto.
Qed.

Hypothesis R_antisym : forall a b, R a b -> R b a -> a = b.

(** A list has one arrangement sorted by an antisymmetric relation. *)
Lemma sorted_unique (l1 : list A) :
  forall l2,
    StronglySorted R l1 -> StronglySorted R l2 -> Permutation l1 l2 ->
    l1 = l2.
Proof.
  induction l1 as [|a l1 IH]; intros l2 H1 H2 P.
  - now apply Permutation_nil in P.
  - destruct l2 as [|b l2].
    + symmetry in P. now apply Permutation_nil in P.
    + apply StronglySorted_inv in H1, H2.
      destruct H1 as [H1 Ha], H2 as [H2 Hb].
      assert (E : a = b).
      { assert (Ia : In a (b :: l2))
          by (apply (Permutation_in _ P); now left).
        assert (Ib : In b (a :: l1))
          by (apply (Permutation_in _ (Permutation_sym P)); now left).
        destruct Ia as [-> | Ia]; [reflexivity|].
        destruct Ib as [-> | Ib]; [reflexivity|].
        rewrite Forall_forall in Ha, Hb. auto. }
      subst b. f_equal. apply IH; auto.
      now apply Permutation_cons_inv with a.
Qed.
End Reverse.

Lemma sort_reverse_descending (l : list Candidate) :
  StronglySorted cand_ge (sort_reverse l).
Proof. apply sorted_rev, stable_sort_ascending. Qed.

(** The result depends on the elements only, not on their order. *)
Lemma sort_reverse_canonical (l l' : list Candidate) :
  Permutation l l' -> sort_reverse l = sort_reverse l'.
Proof.
  intros P. apply sorted_unique with (R := cand_ge).
  - exact cand_ge_antisym.
  - apply sort_reverse_descending.
  - apply sort_reverse_descending.
  - rewrite <- !sort_reverse_perm. exact P.
Qed.

Lemma cand_ge_keys (a b : Candidate) :
  cand_ge a b -> key_ltb (fst a) (fst b) = false.
Proof.
  unfold cand_ge. intros H. apply not_true_is_false. intros K.
  assert (cand_ltb a b = true) by (apply cand_ltb_lex; auto). congruence.
Qed.

Lemma cand_ge_ties (a b : Candidate) :
  cand_ge a b -> fst a = fst b -> snd a <> snd b ->
  String.ltb (snd b) (snd a) = true.
Proof.
  unfold cand_ge. intros H E N.
  destruct (String.ltb (snd b) (snd a)) eqn:L; [reflexivity|].
  exfalso. apply N. apply str_ltb_total; [|exact L].
  apply not_true_is_false. intros K.
  assert (cand_ltb a b = true) by (apply cand_ltb_lex; auto). congruence.
Qed.

End SortFacts.

(** ** Runs of [main] *)

Module MainFacts.

(** The output of a run that gets its listing. *)
Lemma main_finished cl args urlopen data cands :
  parse_args cl = Some args ->
  let prefix := prefix_of (platform args) (s3_target_of (target args)) in
  urlopen (S3_BASE ++ "?prefix=" ++ prefix) = Some data ->
  extract (pattern_of prefix) data = Some cands ->
  let newest := newest_of (count args) (sort_reverse cands) in
  main cl urlopen =
  {| stdout := (info (quiet args) (fetching_line prefix)
                ++ info (quiet args) (showing_line (length newest))
                ++ report newest)%list;
     status := Finished |}.
Proof.
  intros Hargs prefix Hurl Hext newest. unfold main.
  rewrite Hargs. fold prefix. rewrite Hurl, Hext. reflexivity.
Qed.

Lemma main_first_line cl args urlopen :
  parse_args cl = Some args -> quiet args = false ->
  hd_error (stdout (main cl urlopen))
  = Some (fetching_line
            (prefix_of (platform args) (s3_target_of (target args)))).
Proof.
  intros Hargs Hq. unfold main. rewrite Hargs, Hq.
  destruct (urlopen _) as [data|]; [|reflexivity].
  destruct (extract _ data); reflexivity.
Qed.

Lemma slice_to_nonneg {A} (n : Z) (l : list A) :
  (0 <= n)%Z -> slice_to n l = firstn (Z.to_nat n) l.
Proof.
  intros H. unfold slice_to.
  destruct (Z.ltb_spec n 0); [lia | reflexivity].
Qed.

Lemma slice_to_neg {A} (n : Z) (l : list A) :
  (n < 0)%Z -> slice_to n l = firstn (length l - Z.to_nat (- n)) l.
Proof.
  intros H. unfold slice_to.
  destruct (Z.ltb_spec n 0); [|lia]. f_equal. lia.
Qed.

Lemma newest_of_nil count : newest_of count [] = [].
Proof. reflexivity. Qed.

Lemma newest_of_slice count (l : list Candidate) :
  newest_of count l = slice_to count l.
Proof.
  destruct l; [|reflexivity].
  unfold slice_to. now rewrite !firstn_nil, Tauto.if_same.
Qed.

End MainFacts.

(** ** Every order of a list *)

Module Orders.

Lemma interleave_in {A} (x : A) (l1 l2 : list A) :
  In (l1 ++ x :: l2)%list (interleave x (l1 ++ l2)%list).
Proof.
  induction l1 as [|y l1 IH]; cbn [app interleave].
  - destruct l2; now left.
  - right. now apply in_map.
Qed.

Lemma orders_complete {A} (l : list A) :
  forall l', Permutation l l' -> In l' (orders l).
Proof.
  induction l as [|x l IH]; intros l' P; cbn [orders].
  - apply Permutation_nil in P. subst. now left.
  - assert (Hx : In x l') by (apply (Permutation_in _ P); now left).
    apply in_split in Hx. destruct Hx as (l1 & l2 & ->).
    apply Permutation_cons_app_inv in P.
    apply in_flat_map. exists (l1 ++ l2)%list. split; [now apply IH|].
    apply interleave_in.
Qed.

End Orders.

Import StrFacts ReFacts VersionMatch KeyOrder ParseFacts.
Import CandOrder SortFacts MainFacts Orders.

(** ** The version parser *)

(** C1, as stated, fails: the valid version string made of 4300 zeros and a
    1, then .0.0, is not mapped to a tuple; [int] raises on its major
    number. *)
Lemma overlong_version_raises :
  let t := VersionText (zeros 4300 ++ "1") "0" "0" None in
  well_formed t = true /\ parse_version (render t) = None.
Proof.
  split; [vm_compute; reflexivity|].
  apply parse_overlong; vm_compute; reflexivity.
Qed.

(** C1, amended.  Every valid version string MAJOR.MINOR.PATCH[SUFFIX] whose
    numbers have at most 4300 digits parses to a tuple, and the tuples of two
    such strings compare as the versions do: major, minor and patch as
    numbers, then alpha < rc < stable, then the build number.  So 10.0.0 is
    above 9.9.9, 1.2.3 above 1.2.3rc5 above 1.2.3a9, and 2.0.0a1 above
    1.9.9. *)
Theorem parse_version_orders_versions :
  (forall x y : version_text,
      well_formed x = true -> well_formed y = true ->
      bounded x = true -> bounded y = true ->
      parse_version (render x) = Some (key_of x) /\
      parse_version (render y) = Some (key_of y) /\
      (version_gt (render y) (render x) = true <-> precedes x y)) /\
  version_gt "10.0.0" "9.9.9" = true /\
  version_gt "1.2.3" "1.2.3rc5" = true /\
  version_gt "1.2.3rc5" "1.2.3a9" = true /\
  version_gt "2.0.0a1" "1.9.9" = true.
Proof.
  split; [|repeat split; vm_compute; reflexivity].
  intros x y Hx Hy Bx By. unfold version_gt, key_gtb.
  rewrite (parse_bounded x Hx Bx), (parse_bounded y Hy By).
  auto using key_of_order.
Qed.

(** An instance of C1 amended: 1.2.3rc5 against 1.2.3. *)
Lemma parse_version_orders_versions_witness :
  parse_version "1.2.3rc5" = Some (1, 2, 3, 1, 5)%Z /\
  parse_version "1.2.3" = Some (1, 2, 3, 2, 0)%Z /\
  (version_gt "1.2.3" "1.2.3rc5" = true <->
   precedes (VersionText "1" "2" "3" (Some (RC, "5")))
            (VersionText "1" "2" "3" None)).
Proof.
  apply (proj1 parse_version_orders_versions
           (VersionText "1" "2" "3" (Some (RC, "5")))
           (VersionText "1" "2" "3" None)); reflexivity.
Defined.

(** C2. A string that [version_re] does not match parses to the sentinel
    [(0, 0, 0, 1, 0)]; nothing is raised.  ([$] also matches in front of a
    newline that ends the string, so a version followed by one newline is
    matched.) *)
Theorem parse_version_unmatched_is_sentinel (v : string) :
  ~ matches version_re v -> parse_version v = Some (0, 0, 0, 1, 0)%Z.
Proof. exact (parse_unmatched v). Qed.

(** An instance of C2: the string not-a-version. *)
Lemma parse_version_unmatched_is_sentinel_witness :
  ~ matches version_re "not-a-version" /\
  parse_version "not-a-version" = Some (0, 0, 0, 1, 0)%Z.
Proof.
  assert (H : ~ matches version_re "not-a-version").
  { rewrite matches_version_re_match. vm_compute. congruence. }
  split; [exact H|].
  apply (parse_version_unmatched_is_sentinel "not-a-version" H).
Defined.

(** C3, as stated, fails: no string without a match has its sentinel above
    the tuple of an alpha version whose major.minor.patch is above 0.0.0. *)
Lemma sentinel_above_higher_alpha_impossible :
  ~ exists (v : string) (t : version_text) (n : string),
      ~ matches version_re v /\
      well_formed t = true /\ t_suffix t = Some (Alpha, n) /\
      triple_lt (0, 0, 0)%Z (numbers t) /\
      version_gt v (render t) = true.
Proof.
  intros (v & t & n & Hv & Hwf & Hsuf & Hhi & Hgt).
  unfold version_gt in Hgt.
  rewrite (parse_unmatched v Hv), (parse_text t Hwf) in Hgt.
  destruct (bounded t); [|discriminate].
  apply (sentinel_gt_alpha t n Hwf Hsuf) in Hgt.
  rewrite Hgt in Hhi. unfold triple_lt in Hhi. lia.
Qed.

(** C3, amended.  The sentinel of an unmatched string is above the tuple of an
    alpha version (of numbers within the limit of [int]) exactly when that
    version is 0.0.0; an alpha version with a higher major.minor.patch is
    above the sentinel. *)
Theorem sentinel_outranks_only_zero_alpha
  (v : string) (t : version_text) (n : string) :
  ~ matches version_re v ->
  well_formed t = true -> bounded t = true ->
  t_suffix t = Some (Alpha, n) ->
  (version_gt v (render t) = true <-> numbers t = (0, 0, 0)%Z) /\
  (triple_lt (0, 0, 0)%Z (numbers t) -> version_gt (render t) v = true).
Proof.
  intros Hv Hwf Hb Hsuf. unfold version_gt.
  rewrite (parse_unmatched v Hv), (parse_bounded t Hwf Hb). split.
  - now apply sentinel_gt_alpha with (n := n).
  - now apply alpha_gt_sentinel.
Qed.

(** Instances of C3 amended: 0.0.0a7 and 1.0.0a7 against not-a-version. *)
Lemma sentinel_outranks_only_zero_alpha_witness :
  ~ matches version_re "not-a-version" /\
  version_gt "not-a-version" "0.0.0a7" = true /\
  version_gt "1.0.0a7" "not-a-version" = true.
Proof.
  assert (H : ~ matches version_re "not-a-version").
  { rewrite matches_version_re_match. vm_compute. congruence. }
  split; [exact H|]. split.
  - apply (sentinel_outranks_only_zero_alpha "not-a-version"
             (VersionText "0" "0" "0" (Some (Alpha, "7"))) "7" H);
      reflexivity.
  - apply (sentinel_outranks_only_zero_alpha "not-a-version"
             (VersionText "1" "0" "0" (Some (Alpha, "7"))) "7" H);
      [reflexivity | reflexivity | reflexivity
      | vm_compute; left; reflexivity].
Defined.

(** ** The sorter *)

(** C4, as stated, fails: two candidates of the same version with different
    keys, already in descending key order, keep their input order. *)
Lemma sort_reverse_keeps_tie_order :
  extract (pattern_of (prefix_of "linux" "gfx1151"))
    (listing_of [snd tie_first; snd tie_second])
  = Some [tie_first; tie_second] /\
  before tie_first tie_second [tie_first; tie_second] /\
  fst tie_first = fst tie_second /\
  snd tie_first <> snd tie_second /\
  sort_reverse [tie_first; tie_second] = [tie_first; tie_second] /\
  ~ before tie_second tie_first (sort_reverse [tie_first; tie_second]).
Proof.
  split; [vm_compute; reflexivity|].
  split; [now exists [], [], []|].
  split; [reflexivity|]. split; [discriminate|].
  split; [reflexivity|].
  change (sort_reverse [tie_first; tie_second]) with [tie_first; tie_second].
  intros (l1 & l2 & l3 & H).
  unfold tie_first, tie_second in H.
  destruct l1 as [|x [|y l1]]; cbn [app] in H.
  - injection H as E _. discriminate E.
  - injection H as _ H. destruct l2; discriminate H.
  - injection H as _ _ H. destruct l1; discriminate H.
Qed.

(** C4, amended.  The sorter arranges the candidates in descending order of
    the pair (VersionKey, key string): the version tuples never increase, two
    candidates of the same tuple with different keys come greater key first,
    and the result is the same for every input order. *)
Theorem sort_reverse_orders_pairs (l : list Candidate) :
  Permutation l (sort_reverse l) /\
  StronglySorted (fun a b => cand_ltb a b = false) (sort_reverse l) /\
  StronglySorted (fun a b => key_ltb (fst a) (fst b) = false)
    (sort_reverse l) /\
  StronglySorted
    (fun a b => fst a = fst b -> snd a <> snd b ->
                String.ltb (snd b) (snd a) = true)
    (sort_reverse l) /\
  (forall l', Permutation l l' -> sort_reverse l' = sort_reverse l).
Proof.
  pose proof (sort_reverse_descending l) as D.
  repeat split.
  - apply sort_reverse_perm.
  - exact D.
  - apply sorted_weaken with (2 := D). exact cand_ge_keys.
  - apply sorted_weaken with (2 := D). exact cand_ge_ties.
  - intros l' P. symmetry. now apply sort_reverse_canonical.
Qed.

(** An instance of C4 amended: the two orders of a tie. *)
Lemma sort_reverse_orders_pairs_witness :
  sort_reverse [tie_first; tie_second] = sort_reverse [tie_second; tie_first].
Proof.
  apply (proj2 (proj2 (proj2 (proj2
           (sort_reverse_orders_pairs [tie_second; tie_first]))))).
  apply perm_swap.
Defined.

(** ** The extractor and the sorter on a listing *)

(** C5. From a listing of the keys 7.0.0, 7.0.1rc2, 7.1.0a1 and an unrelated
    key, in any order, the extractor keeps the three matching keys and the
    sorter puts them in the order 7.1.0a1, 7.0.1rc2, 7.0.0; nothing is
    reported about the fourth key. *)
Theorem listing_example (keys : list string) :
  Permutation [key_stable; key_rc; key_alpha; key_other] keys ->
  let data := listing_of keys in
  exists cands,
    extract (pattern_of (prefix_of "linux" "gfx1151")) data = Some cands /\
    map snd cands = filter (fun k => negb (String.eqb k key_other)) keys /\
    sort_reverse cands
    = [((7, 1, 0, 0, 1)%Z, key_alpha); ((7, 0, 1, 1, 2)%Z, key_rc);
       ((7, 0, 0, 2, 0)%Z, key_stable)] /\
    main defaults (fun _ => Some data)
    = {| stdout :=
           ["Fetching S3 listing for prefix: therock-dist-linux-gfx1151-7 ...";
            "Showing 3 newest candidate(s):";
            S3_BASE ++ key_alpha; S3_BASE ++ key_rc; S3_BASE ++ key_stable];
         status := Finished |}.
Proof.
  intros P. apply orders_complete in P.
  cbv [orders interleave flat_map map app] in P.
  repeat (destruct P as [<- | P]);
    try (eexists; split; [vm_compute; reflexivity|];
         repeat split; vm_compute; reflexivity).
  destruct P.
Qed.

(** An instance of C5: the keys in the order given above. *)
Lemma listing_example_witness :
  exists cands,
    extract (pattern_of (prefix_of "linux" "gfx1151"))
      (listing_of [key_stable; key_rc; key_alpha; key_other]) = Some cands /\
    map snd cands = [key_stable; key_rc; key_alpha] /\
    map snd (sort_reverse cands) = [key_alpha; key_rc; key_stable].
Proof.
  destruct (listing_example [key_stable; key_rc; key_alpha; key_other]
              (Permutation_refl _)) as (cands & H1 & H2 & H3 & _).
  exists cands. split; [exact H1|]. split; [exact H2|].
  rewrite H3. reflexivity.
Defined.

(** ** The target resolver *)

(** C6. gfx110X resolves to gfx110X-dgpu, gfx120X to gfx120X-all and every
    other target to itself; the prefix is
    therock-dist-{platform}-{resolved target}-7, and it is the prefix [main]
    announces and queries. *)
Theorem target_resolver (t : string) :
  s3_target_of "gfx110X" = "gfx110X-dgpu" /\
  s3_target_of "gfx120X" = "gfx120X-all" /\
  (t <> "gfx110X" -> t <> "gfx120X" -> s3_target_of t = t) /\
  (forall platform : string,
      prefix_of platform (s3_target_of t)
      = "therock-dist-" ++ platform ++ "-" ++ s3_target_of t ++ "-7") /\
  (forall cl args urlopen,
      parse_args cl = Some args -> target args = t ->
      let prefix :=
        "therock-dist-" ++ platform args ++ "-" ++ s3_target_of t ++ "-7" in
      (quiet args = false ->
       hd_error (stdout (main cl urlopen)) = Some (fetching_line prefix)) /\
      (urlopen (S3_BASE ++ "?prefix=" ++ prefix) = None ->
       status (main cl urlopen) = Raised)).
Proof.
  split; [reflexivity|]. split; [reflexivity|]. split; [|split].
  - intros H1 H2. unfold s3_target_of.
    apply String.eqb_neq in H1, H2. now rewrite H1, H2.
  - reflexivity.
  - intros cl args urlopen Hargs <- prefix. split.
    + intros Hq. now apply main_first_line.
    + intros Hurl. unfold main. rewrite Hargs.
      unfold prefix, prefix_of in *. now rewrite Hurl.
Qed.

(** Instances of C6: gfx1151, and gfx110X on windows. *)
Lemma target_resolver_witness :
  s3_target_of "gfx1151" = "gfx1151" /\
  hd_error
    (stdout
       (main {| opt_platform := Some "windows"; opt_target := Some "gfx110X";
                opt_count := None; opt_quiet := false |}
             (fun _ => None)))
  = Some "Fetching S3 listing for prefix: therock-dist-windows-gfx110X-dgpu-7 ...".
Proof.
  split.
  - apply (proj1 (proj2 (proj2 (target_resolver "gfx1151")))); discriminate.
  - refine (proj1 (proj2 (proj2 (proj2 (proj2 (target_resolver "gfx110X"))))
                    {| opt_platform := Some "windows";
                       opt_target := Some "gfx110X";
                       opt_count := None; opt_quiet := false |}
                    {| platform := "windows"; target := "gfx110X";
                       count := 5; quiet := false |}
                    (fun _ => None) eq_refl eq_refl) eq_refl).
Defined.

(** ** The reporter *)

(** C7. The URL lines are base + key for the first N sorted candidates,
    N = --count (5 when the option is absent, N >= 0); with --count 2 and five
    candidates they are the two highest, and no candidate gives no URL
    line. *)
Theorem reporter_truncates cl args urlopen data cands :
  parse_args cl = Some args ->
  let prefix := prefix_of (platform args) (s3_target_of (target args)) in
  urlopen (S3_BASE ++ "?prefix=" ++ prefix) = Some data ->
  extract (pattern_of prefix) data = Some cands ->
  let sorted := sort_reverse cands in
  let urls := report (newest_of (count args) sorted) in
  (opt_count cl = None -> count args = 5%Z) /\
  stdout (main cl urlopen)
  = (info (quiet args) (fetching_line prefix)
     ++ info (quiet args) (showing_line (length urls)) ++ urls)%list /\
  ((0 <= count args)%Z ->
   urls = map (fun c => S3_BASE ++ snd c)
            (firstn (Z.to_nat (count args)) sorted)) /\
  (count args = 2%Z -> length cands = 5 ->
   exists a b rest,
     sorted = a :: b :: rest /\ urls = [S3_BASE ++ snd a; S3_BASE ++ snd b]) /\
  (cands = [] -> urls = []).
Proof.
  intros Hargs prefix Hurl Hext sorted urls.
  split; [|split; [|split; [|split]]].
  - intros Hc. unfold parse_args in Hargs.
    destruct (existsb _ _); [|discriminate].
    injection Hargs as <-. cbn [count]. now rewrite Hc.
  - rewrite (main_finished cl args urlopen data cands Hargs Hurl Hext).
    cbn [stdout]. unfold urls, report. now rewrite length_map.
  - intros Hc. unfold urls.
    rewrite newest_of_slice, slice_to_nonneg by assumption. reflexivity.
  - intros Hc Hlen.
    assert (Hs : length sorted = 5).
    { unfold sorted.
      now rewrite <- (Permutation_length (sort_reverse_perm cands)). }
    destruct sorted as [|a [|b rest]] eqn:E; try discriminate.
    exists a, b, rest. split; [reflexivity|].
    unfold urls. rewrite Hc. reflexivity.
  - intros ->. reflexivity.
Qed.

(** An instance of C7: --count 2 on five keys. *)
Lemma reporter_truncates_witness :
  stdout (main (with_count 2) (fun _ => Some (listing_of five_keys)))
  = [S3_BASE ++ "therock-dist-linux-gfx1151-7.10.0.tar.gz";
     S3_BASE ++ "therock-dist-linux-gfx1151-7.9.0rc1.tar.gz"].
Proof.
  destruct (reporter_truncates (with_count 2) (args_with_count 2)
              (fun _ => Some (listing_of five_keys))
              (listing_of five_keys) five_candidates
              eq_refl eq_refl ltac:(vm_compute; reflexivity))
    as (_ & H & _).
  rewrite H. vm_compute. reflexivity.
Defined.

(** ** The command line *)

(** C8, as stated, fails: a platform outside linux and windows is a usage
    error, and no query is made. *)
Lemma platform_outside_choices_is_rejected :
  let cl := {| opt_platform := Some "macos"; opt_target := Some "gfx1151";
               opt_count := None; opt_quiet := false |} in
  parse_args cl = None /\
  main cl (fun _ => Some (listing_of [key_stable]))
  = {| stdout := []; status := UsageError |}.
Proof. split; reflexivity. Qed.

(** C8, amended.  Every target string is accepted as it is and goes, after
    the alias rule, into the prefix of the one URL the run opens: the run
    raises when that URL cannot be fetched, and else prints what the listing
    fetched from it gives.  A platform is accepted when it is linux or
    windows (or absent), and any other platform ends the run with a usage
    error before anything is printed or opened. *)
Theorem target_free_platform_checked (cl : CommandLine)
  (urlopen : string -> option string) :
  (opt_platform cl = None \/ opt_platform cl = Some "linux" \/
   opt_platform cl = Some "windows" ->
   exists args,
     parse_args cl = Some args /\
     platform args = default "linux" (opt_platform cl) /\
     target args = default "gfx1151" (opt_target cl) /\
     let prefix :=
       "therock-dist-" ++ platform args ++ "-"
       ++ s3_target_of (target args) ++ "-7" in
     (urlopen (S3_BASE ++ "?prefix=" ++ prefix) = None ->
      main cl urlopen
      = {| stdout := info (quiet args) (fetching_line prefix);
           status := Raised |}) /\
     (forall data cands,
         urlopen (S3_BASE ++ "?prefix=" ++ prefix) = Some data ->
         extract (pattern_of prefix) data = Some cands ->
         let newest := newest_of (count args) (sort_reverse cands) in
         main cl urlopen
         = {| stdout :=
                (info (quiet args) (fetching_line prefix)
                 ++ info (quiet args) (showing_line (length newest))
                 ++ map (fun c => (S3_BASE ++ snd c)%string) newest)%list;
              status := Finished |})) /\
  (forall p : string,
      opt_platform cl = Some p -> p <> "linux" -> p <> "windows" ->
      parse_args cl = None /\
      main cl urlopen = {| stdout := []; status := UsageError |}).
Proof.
  split.
  - intros H.
    assert (Hp : existsb (String.eqb (default "linux" (opt_platform cl)))
                   platform_choices = true).
    { destruct H as [-> | [-> | ->]]; reflexivity. }
    assert (Hargs : exists args, parse_args cl = Some args /\
                      platform args = default "linux" (opt_platform cl) /\
                      target args = default "gfx1151" (opt_target cl)).
    { eexists. unfold parse_args. rewrite Hp. repeat split. }
    destruct Hargs as (args & Hargs & H1 & H2).
    exists args. split; [exact Hargs|]. split; [exact H1|].
    split; [exact H2|]. intros prefix. split.
    + intros Hurl. unfold main. rewrite Hargs.
      change (prefix_of (platform args) (s3_target_of (target args)))
        with prefix.
      now rewrite Hurl.
    + intros data cands Hurl Hext newest.
      exact (main_finished cl args urlopen data cands Hargs Hurl Hext).
  - intros p Hp H1 H2.
    assert (E : parse_args cl = None).
    { unfold parse_args. rewrite Hp. cbn [default platform_choices existsb].
      apply String.eqb_neq in H1, H2. now rewrite H1, H2. }
    split; [exact E|]. unfold main. now rewrite E.
Qed.

(** An instance of C8 amended: an unknown target on windows, against a
    network that answers the one URL of its prefix with an empty listing. *)
Lemma target_free_platform_checked_witness :
  main {| opt_platform := Some "windows"; opt_target := Some "gfx9999";
          opt_count := None; opt_quiet := false |}
    (fun url =>
       if String.eqb url (S3_BASE ++ "?prefix=therock-dist-windows-gfx9999-7")
       then Some "" else None)
  = {| stdout :=
         ["Fetching S3 listing for prefix: therock-dist-windows-gfx9999-7 ...";
          "Showing 0 newest candidate(s):"];
       status := Finished |}.
Proof.
  destruct (proj1 (target_free_platform_checked
              {| opt_platform := Some "windows";
                 opt_target := Some "gfx9999";
                 opt_count := None; opt_quiet := false |}
              (fun url =>
                 if String.eqb url
                      (S3_BASE ++ "?prefix=therock-dist-windows-gfx9999-7")
                 then Some "" else None))
              (or_intror (or_intror eq_refl)))
    as (args & Hargs & _ & _ & _ & Hsome).
  injection Hargs as <-.
  exact (Hsome "" [] eq_refl eq_refl).
Defined.

(** ** Corner cases of the parser and of the reporter *)

(** C9, as stated, fails: the version string made of 4300 zeros and a 1, then
    .2.3rc, has a bare channel marker and does not parse; [int] raises on its
    major number. *)
Lemma overlong_bare_marker_raises :
  let t := VersionText (zeros 4300 ++ "1") "2" "3" (Some (RC, "")) in
  well_formed t = true /\ parse_version (render t) = None.
Proof.
  split; [vm_compute; reflexivity|].
  apply parse_overlong; vm_compute; reflexivity.
Qed.

(** C9, amended.  A version string of numbers of at most 4300 digits whose
    suffix is a channel marker without a number is matched and parses with
    build number 0, so every numbered build N >= 1 of the same version and
    channel is above it; 1.2.3rc parses to [(1, 2, 3, 1, 0)]. *)
Theorem bare_marker_is_build_zero (ma mi pa : string) (ch : channel) :
  digits ma = true -> digits mi = true -> digits pa = true ->
  fits ma = true -> fits mi = true -> fits pa = true ->
  let bare := VersionText ma mi pa (Some (ch, "")) in
  matches version_re (render bare) /\
  parse_version (render bare)
  = Some (value ma, value mi, value pa, rank (Some ch), 0%Z) /\
  (forall n : string,
      digits n = true -> fits n = true -> (1 <= value n)%Z ->
      version_gt (render (VersionText ma mi pa (Some (ch, n)))) (render bare)
      = true) /\
  parse_version "1.2.3rc" = Some (1, 2, 3, 1, 0)%Z.
Proof.
  intros Hma Hmi Hpa Fma Fmi Fpa bare.
  assert (Hwf : well_formed bare = true).
  { unfold well_formed, bare. cbn. now rewrite Hma, Hmi, Hpa. }
  assert (Hb : bounded bare = true).
  { unfold bounded, bare. cbn. now rewrite Fma, Fmi, Fpa. }
  split; [|split; [|split]].
  - apply matches_version. exists bare, "".
    rewrite app_nil_r. repeat split; [assumption | now left].
  - now rewrite parse_bounded.
  - intros n Hn Fn Hval.
    assert (Hwf' : well_formed (VersionText ma mi pa (Some (ch, n))) = true).
    { unfold well_formed. cbn. rewrite Hma, Hmi, Hpa.
      now apply digits_spec in Hn. }
    assert (Hb' : bounded (VersionText ma mi pa (Some (ch, n))) = true).
    { unfold bounded. cbn. now rewrite Fma, Fmi, Fpa, Fn. }
    unfold version_gt. rewrite !parse_bounded by assumption.
    unfold key_gtb, key_of, bare, stage, build. cbn.
    apply key_ltb_lex. lia.
  - reflexivity.
Qed.

(** An instance of C9 amended: 7.0.1rc against 7.0.1rc2. *)
Lemma bare_marker_is_build_zero_witness :
  parse_version "7.0.1rc" = Some (7, 0, 1, 1, 0)%Z /\
  version_gt "7.0.1rc2" "7.0.1rc" = true.
Proof.
  pose proof (bare_marker_is_build_zero "7" "0" "1" RC
                eq_refl eq_refl eq_refl eq_refl eq_refl eq_refl)
    as (_ & H1 & H2 & _).
  split; [exact H1|].
  exact (H2 "2" eq_refl eq_refl ltac:(vm_compute; discriminate)).
Defined.

(** C10. With a negative --count and at least one candidate, the lines after
    the status lines are base + key for the sorted candidates without the
    last |count| of them, and the run ends normally. *)
Theorem negative_count_drops_last cl args urlopen data cands :
  parse_args cl = Some args ->
  let prefix := prefix_of (platform args) (s3_target_of (target args)) in
  urlopen (S3_BASE ++ "?prefix=" ++ prefix) = Some data ->
  extract (pattern_of prefix) data = Some cands ->
  (count args < 0)%Z -> cands <> [] ->
  let sorted := sort_reverse cands in
  let n := length cands - Z.to_nat (- count args) in
  Permutation cands sorted /\
  StronglySorted (fun a b => cand_ltb a b = false) sorted /\
  sorted = (firstn n sorted ++ skipn n sorted)%list /\
  length (skipn n sorted) = Nat.min (Z.to_nat (- count args)) (length cands) /\
  main cl urlopen
  = {| stdout :=
         (info (quiet args) (fetching_line prefix)
          ++ info (quiet args) (showing_line n)
          ++ map (fun c => (S3_BASE ++ snd c)%string) (firstn n sorted))%list;
       status := Finished |}.
Proof.
  intros Hargs prefix Hurl Hext Hc Hne sorted n.
  assert (Hlen : length sorted = length cands).
  { unfold sorted.
    now rewrite <- (Permutation_length (sort_reverse_perm cands)). }
  split; [apply sort_reverse_perm|].
  split; [apply sort_reverse_descending|].
  split; [now rewrite firstn_skipn|]. split.
  - rewrite length_skipn. unfold n. lia.
  - rewrite (main_finished cl args urlopen data cands Hargs Hurl Hext).
    fold sorted. rewrite newest_of_slice, slice_to_neg by assumption.
    rewrite Hlen. fold n. unfold report.
    replace (length (firstn n sorted)) with n; [reflexivity|].
    rewrite length_firstn. unfold n. lia.
Qed.

(** An instance of C10: --count -1 on five keys. *)
Lemma negative_count_drops_last_witness :
  main (with_count (-1)) (fun _ => Some (listing_of five_keys))
  = {| stdout :=
         [S3_BASE ++ "therock-dist-linux-gfx1151-7.10.0.tar.gz";
          S3_BASE ++ "therock-dist-linux-gfx1151-7.9.0rc1.tar.gz";
          S3_BASE ++ "therock-dist-linux-gfx1151-7.1.0a1.tar.gz";
          S3_BASE ++ "therock-dist-linux-gfx1151-7.0.1rc2.tar.gz"];
       status := Finished |}.
Proof.
  destruct (negative_count_drops_last (with_count (-1)) (args_with_count (-1))
              (fun _ => Some (listing_of five_keys))
              (listing_of five_keys) five_candidates
              eq_refl eq_refl ltac:(vm_compute; reflexivity)
              ltac:(reflexivity) ltac:(discriminate))
    as (_ & _ & _ & _ & H).
  rewrite H. vm_compute. reflexivity.
Defined.

(** ** Further facts: fields and paddings of version texts *)

Module FieldFacts.

Lemma value_zeros (z : nat) (d : string) : value (zeros z ++ d) = value d.
Proof.
  induction z as [|z IH]; cbn [zeros append value]; [reflexivity|].
  rewrite IH. change (Z.of_nat (nat_of_ascii "0") - 48)%Z with 0%Z. lia.
Qed.

Lemma all_zeros (z : nat) : Str.all is_digit (zeros z) = true.
Proof. induction z as [|z IH]; simpl; [reflexivity | exact IH]. Qed.

Lemma digits_zeros (z : nat) (d : string) :
  digits d = true -> digits (zeros z ++ d) = true.
Proof.
  intros H. apply digits_spec in H. destruct H as [Hne Hall].
  apply digits_spec. split.
  - destruct z; cbn [zeros append]; [exact Hne | discriminate].
  - now rewrite all_app, all_zeros, Hall.
Qed.

Lemma padded_well_formed z1 z2 z3 z4 (t : version_text) :
  well_formed t = true -> well_formed (padded z1 z2 z3 z4 t) = true.
Proof.
  unfold well_formed, padded. cbn [t_major t_minor t_patch t_suffix].
  rewrite !andb_true_iff. intros [[[H1 H2] H3] H4].
  repeat split; auto using digits_zeros.
  destruct (t_suffix t) as [[ch n]|]; [|reflexivity].
  now rewrite all_app, all_zeros, H4.
Qed.

Lemma padded_key z1 z2 z3 z4 (t : version_text) :
  key_of (padded z1 z2 z3 z4 t) = key_of t.
Proof.
  unfold key_of, padded, stage, build.
  cbn [t_major t_minor t_patch t_suffix]. rewrite !value_zeros.
  destruct (t_suffix t) as [[ch n]|]; cbn [option_map fst];
    [now rewrite value_zeros | reflexivity].
Qed.

Lemma build_nonneg (t : version_text) :
  well_formed t = true -> (0 <= build t)%Z.
Proof.
  unfold well_formed, build. rewrite !andb_true_iff. intros [_ H].
  destruct (t_suffix t) as [[ch n]|]; [now apply value_nonneg | lia].
Qed.

Lemma key_of_fields (t : version_text) a b c d e :
  well_formed t = true -> key_of t = (a, b, c, d, e) ->
  (0 <= a /\ 0 <= b /\ 0 <= c /\ (d = 0 \/ d = 1 \/ d = 2) /\ 0 <= e /\
   (d = 2 -> e = 0))%Z.
Proof.
  intros Hwf E. pose proof (numbers_nonneg t Hwf) as (H1 & H2 & H3).
  pose proof (build_nonneg t Hwf) as H4.
  unfold key_of, stage, build in *. injection E as <- <- <- <- <-.
  repeat split; try assumption.
  - destruct (t_suffix t) as [[[] n]|]; cbn; auto.
  - destruct (t_suffix t) as [[[] n]|]; cbn; intros; try reflexivity; lia.
Qed.

Lemma fits_zeros (z : nat) (d : string) :
  fits (zeros z ++ d) = true -> fits d = true.
Proof.
  unfold fits. rewrite !Z.leb_le, length_app. lia.
Qed.

Lemma padded_bounded z1 z2 z3 z4 (t : version_text) :
  bounded (padded z1 z2 z3 z4 t) = true -> bounded t = true.
Proof.
  unfold bounded, padded. cbn [t_major t_minor t_patch t_suffix].
  rewrite !andb_true_iff. intros [[[H1 H2] H3] H4].
  apply fits_zeros in H1, H2, H3. repeat split; auto.
  destruct (t_suffix t) as [[ch n]|]; [|reflexivity].
  now apply fits_zeros in H4.
Qed.

End FieldFacts.

(** ** Further facts: what the filename pattern finds *)

Module ExtractFacts.

Import FieldFacts.

Lemma sem_text (s : string) :
  forall s1 s2 c c', sem (text s) s1 s2 c c' -> s1 = s /\ c' = c.
Proof.
  induction s as [|a s IH]; intros s1 s2 c c' H; cbn [text sem] in H.
  - exact H.
  - destruct H as (u & v & cm & -> & [-> ->] & H).
    apply IH in H. destruct H as [-> ->]. auto.
Qed.

Lemma sem_plus_digit d s2 c c' :
  sem (Plus digit) d s2 c c' -> digits d = true /\ c' = c.
Proof.
  intros H. apply iter_class with (p := is_digit) in H.
  - destruct H as (Hne & Hall & ->). split; [|reflexivity].
    apply digits_spec. auto.
  - intros s1 s3 c0 c0' Hs. exact Hs.
Qed.

Lemma sem_version_body v s2 c c' :
  sem version_body v s2 c c' ->
  exists t,
    well_formed t = true /\ numbered t = true /\ v = render t /\ c' = c.
Proof.
  unfold version_body. intros H.
  destruct H as (d1 & r1 & c1 & -> & H1 & H).
  destruct H as (p1 & r2 & c1' & -> & [-> ->] & H).
  destruct H as (d2 & r3 & c2 & -> & H2 & H).
  destruct H as (p2 & r4 & c2' & -> & [-> ->] & H).
  destruct H as (d3 & sx & c3 & -> & H3 & H).
  apply sem_plus_digit in H1, H2, H3.
  destruct H1 as [D1 ->], H2 as [D2 ->], H3 as [D3 ->].
  assert (Hs : exists suf,
             sx = suffix_text suf /\ c' = c /\
             match suf with Some (_, n) => digits n | None => true end = true).
  { destruct H as [[H | H] | [-> ->]].
    - destruct H as (a & n & cm & -> & [-> ->] & H).
      apply sem_plus_digit in H. destruct H as [Dn ->].
      now exists (Some (Alpha, n)).
    - destruct H as (a & r & cm & -> & [-> ->] & H).
      destruct H as (b & n & cm' & -> & [-> ->] & H).
      apply sem_plus_digit in H. destruct H as [Dn ->].
      now exists (Some (RC, n)).
    - now exists None. }
  destruct Hs as (suf & -> & -> & Hsuf).
  exists (VersionText d1 d2 d3 suf).
  unfold well_formed, numbered, render.
  cbn [t_major t_minor t_patch t_suffix]. rewrite D1, D2, D3.
  repeat split; [|exact Hsuf].
  destruct suf as [[ch n]|]; [|reflexivity].
  apply digits_spec in Hsuf. cbn [andb]. apply Hsuf.
Qed.

(** What a match of the filename pattern has matched and captured. *)
Lemma sem_pattern prefix s1 s2 c' :
  sem (pattern_of prefix) s1 s2 [] c' ->
  exists t,
    well_formed t = true /\ numbered t = true /\
    s1 = Str.drop_last2 prefix ++ "-" ++ render t ++ ".tar.gz" /\
    line_end s2 /\ c' = [(1, render t)].
Proof.
  unfold pattern_of, escape. intros H.
  destruct H as (st & r1 & c1 & -> & H1 & H).
  apply sem_text in H1. destruct H1 as [-> ->].
  destruct H as (da & r2 & c2 & -> & [-> ->] & H).
  destruct H as (v & r3 & c3 & -> & (cm & Hv & ->) & H).
  apply sem_version_body in Hv.
  destruct Hv as (t & Hwf & Hnum & -> & ->).
  destruct H as (p1 & r4 & c4 & -> & [-> ->] & H).
  destruct H as (tar & r5 & c5 & -> & H5 & H).
  apply sem_text in H5. destruct H5 as [-> ->].
  destruct H as (p2 & r6 & c6 & -> & [-> ->] & H).
  destruct H as (gz & e & c7 & -> & H7 & (-> & -> & He)).
  apply sem_text in H7. destruct H7 as [-> ->].
  exists t. repeat split; auto.
Qed.

Lemma search_found (r : regex) (s : string) (m : match_obj) :
  search r s = Some m ->
  exists pre s', s = pre ++ s' /\ re_match r s' = Some m.
Proof.
  induction s as [|a s IH]; cbn [search]; intros H.
  - destruct (re_match r "") eqn:E; [|discriminate].
    exists "", "". now rewrite <- H.
  - destruct (re_match r (String a s)) eqn:E.
    + exists "", (String a s). now rewrite <- H.
    + apply IH in H. destruct H as (pre & s' & -> & H).
      now exists (String a pre), s'.
Qed.

(** A key the pattern finds has the expected shape, and its group is a
    numbered version text. *)
Lemma search_pattern prefix key m :
  search (pattern_of prefix) key = Some m ->
  exists t,
    well_formed t = true /\ numbered t = true /\
    key_shape prefix key t /\ group 1 m = Some (render t).
Proof.
  intros H. apply search_found in H. destruct H as (pre & s' & -> & H).
  apply re_match_sound in H. destruct H as (s1 & -> & H).
  apply sem_pattern in H.
  destruct H as (t & Hwf & Hnum & -> & Hnl & Hc).
  exists t. repeat split; auto.
  - exists pre, (rest m). split; [exact Hnl|].
    now rewrite !app_assoc.
  - unfold group. now rewrite Hc.
Qed.

Lemma parse_group1_pattern prefix key m :
  search (pattern_of prefix) key = Some m ->
  exists t,
    well_formed t = true /\ numbered t = true /\
    key_shape prefix key t /\
    parse_group1 m = if bounded t then Some (key_of t) else None.
Proof.
  intros H. apply search_pattern in H.
  destruct H as (t & Hwf & Hnum & Hk & Hg).
  exists t. repeat split; auto.
  unfold parse_group1. rewrite Hg. now apply parse_text.
Qed.

(** What the loop returns when no [int] raises. *)
Lemma collect_pattern prefix (keys : list string) :
  forall acc res,
    collect (pattern_of prefix) keys acc = Some res ->
    exists cands,
      res = (acc ++ cands)%list /\
      Forall (candidate_ok prefix) cands /\
      map snd cands = filter (retained (pattern_of prefix)) keys.
Proof.
  induction keys as [|key keys IH]; intros acc res H;
    cbn [collect filter] in *.
  - injection H as <-. exists []. rewrite List.app_nil_r. auto.
  - unfold retained at 1.
    destruct (search (pattern_of prefix) key) as [m|] eqn:E.
    + apply parse_group1_pattern in E.
      destruct E as (t & Hwf & Hnum & Hk & Hp). rewrite Hp in H.
      destruct (bounded t) eqn:B; [|discriminate]. cbn [bind] in H.
      apply IH in H. destruct H as (cands & -> & H2 & H3).
      exists ((key_of t, key) :: cands). rewrite <- List.app_assoc.
      split; [reflexivity|]. split.
      * constructor; [|exact H2]. exists t. auto.
      * cbn [map snd]. now rewrite H3.
    + now apply IH.
Qed.

(** The loop raises only at a key whose version has a number over the limit
    of [int]. *)
Lemma collect_raises prefix (keys : list string) :
  forall acc,
    collect (pattern_of prefix) keys acc = None ->
    exists key t,
      In key keys /\ well_formed t = true /\ numbered t = true /\
      key_shape prefix key t /\ bounded t = false.
Proof.
  induction keys as [|key keys IH]; intros acc H; cbn [collect] in H;
    [discriminate|].
  destruct (search (pattern_of prefix) key) as [m|] eqn:E.
  - apply parse_group1_pattern in E.
    destruct E as (t & Hwf & Hnum & Hk & Hp). rewrite Hp in H.
    destruct (bounded t) eqn:B.
    + cbn [bind] in H. apply IH in H.
      destruct H as (key' & t' & Hin & H).
      exists key', t'. split; [now right | exact H].
    + exists key, t. repeat split; auto. now left.
  - apply IH in H. destruct H as (key' & t' & Hin & H).
    exists key', t'. split; [now right | exact H].
Qed.

Lemma extract_pattern prefix data cands :
  extract (pattern_of prefix) data = Some cands ->
  Forall (candidate_ok prefix) cands /\
  map snd cands
  = filter (retained (pattern_of prefix)) (findall key_re data).
Proof.
  unfold extract. intros H. apply collect_pattern in H.
  destruct H as (cands' & -> & H2 & H3). auto.
Qed.

(** The numbers of a version are no longer than a key that holds it. *)
Lemma key_shape_fits prefix key (t : version_text) :
  key_shape prefix key t -> fits key = true -> bounded t = true.
Proof.
  intros (pre & nl & _ & ->). destruct t as [ma mi pa suf].
  unfold bounded, render. cbn [t_major t_minor t_patch t_suffix].
  unfold fits. rewrite !andb_true_iff, !Z.leb_le.
  repeat (rewrite length_app || cbn [String.length]).
  intros H.
  destruct suf as [[ch n]|]; cbn [suffix_text String.length] in *;
    rewrite ?length_app in H; rewrite ?Z.leb_le;
    repeat split; lia.
Qed.

(** The loop does not raise on keys of at most 4300 characters. *)
Lemma extract_short_keys prefix data :
  Forall (fun key => fits key = true) (findall key_re data) ->
  exists cands, extract (pattern_of prefix) data = Some cands.
Proof.
  intros H. unfold extract.
  destruct (collect (pattern_of prefix) (findall key_re data) [])
    as [cands|] eqn:E; [eauto|].
  apply collect_raises in E.
  destruct E as (key & t & Hin & _ & _ & Hk & Hb).
  rewrite Forall_forall in H.
  rewrite (key_shape_fits prefix key t Hk (H key Hin)) in Hb. discriminate.
Qed.

End ExtractFacts.

(** ** Further facts: the patterns on keys and listings *)

Module ListingFacts.

Import ExtractFacts.

Lemma run_text {A} (s rest : string) c (k : cont A) :
  run (text s) (s ++ rest) c k = k rest c.
Proof.
  induction s as [|a s IH]; cbn [text append]; [reflexivity|].
  rewrite run_cat, run_lit, Ascii.eqb_refl. exact IH.
Qed.

Lemma search_at_start (r : regex) (s : string) (m : match_obj) :
  re_match r s = Some m -> search r s = Some m.
Proof. intros H. destruct s; cbn [search]; now rewrite H. Qed.

(** The version group on a numbered version text that a dot follows. *)
Lemma run_version_body {A} (t : version_text) (rest : string) c
  (k : cont A) x :
  well_formed t = true -> numbered t = true ->
  k (String "." rest) c = Some x ->
  run version_body (render t ++ String "." rest) c k = Some x.
Proof.
  destruct t as [ma mi pa suf]. unfold well_formed, numbered, render.
  cbn [t_major t_minor t_patch t_suffix].
  rewrite !andb_true_iff. intros [[[Hma Hmi] Hpa] _] Hnum Hk.
  apply digits_spec in Hma, Hmi, Hpa.
  destruct Hma as [N1 A1], Hmi as [N2 A2], Hpa as [N3 A3].
  rewrite !app_assoc. cbn [append]. unfold version_body.
  rewrite run_cat. apply run_plus_cls; [assumption..|reflexivity|].
  rewrite run_cat, run_lit. cbn [Ascii.eqb Bool.eqb].
  rewrite run_cat. apply run_plus_cls; [assumption..|reflexivity|].
  rewrite run_cat, run_lit. cbn [Ascii.eqb Bool.eqb].
  rewrite run_cat. apply run_plus_cls; [assumption..| |].
  - destruct suf as [[[] n]|]; reflexivity.
  - destruct suf as [[ch n]|]; cbn [suffix_text].
    + apply digits_spec in Hnum. destruct Hnum as [Nn An].
      apply run_opt_taken. rewrite app_assoc.
      destruct ch; cbn [marker append].
      * apply run_alt_left. rewrite run_cat, run_lit.
        cbn [Ascii.eqb Bool.eqb]. now apply run_plus_cls.
      * rewrite run_alt_right by reflexivity.
        rewrite !run_cat, !run_lit. cbn [Ascii.eqb Bool.eqb].
        now apply run_plus_cls.
    + cbn [append]. rewrite run_opt_skipped; [exact Hk | reflexivity].
Qed.

(** The filename pattern on the key of a numbered version text. *)
Lemma re_match_key_for prefix (t : version_text) :
  well_formed t = true -> numbered t = true ->
  re_match (pattern_of prefix) (key_for prefix t)
  = Some (MatchObj "" [(1, render t)]).
Proof.
  intros Hwf Hnum. unfold re_match, pattern_of, escape, key_for.
  rewrite run_cat, run_text. cbn [append].
  rewrite run_cat, run_lit. cbn [Ascii.eqb Bool.eqb].
  rewrite run_cat, run_grp.
  apply (run_version_body t "tar.gz"); [assumption..|].
  change (String "." "tar.gz") with (".tar.gz").
  rewrite taken_app. reflexivity.
Qed.

Lemma search_key_for prefix (t : version_text) :
  well_formed t = true -> numbered t = true ->
  search (pattern_of prefix) (key_for prefix t)
  = Some (MatchObj "" [(1, render t)]).
Proof. intros. now apply search_at_start, re_match_key_for. Qed.

(** The loop keeps the key of every numbered version text within the limit
    of [int]. *)
Lemma collect_keys_for prefix (ts : list version_text) :
  Forall (fun t => well_formed t = true /\ numbered t = true /\
                   bounded t = true) ts ->
  forall acc,
    collect (pattern_of prefix) (map (key_for prefix) ts) acc
    = Some (acc ++ map (fun t => (key_of t, key_for prefix t)) ts)%list.
Proof.
  induction 1 as [|t ts (Hwf & Hnum & Hb) _ IH]; intros acc;
    cbn [map collect].
  - now rewrite List.app_nil_r.
  - rewrite search_key_for by assumption.
    unfold parse_group1, group. cbn [caps lookup Nat.eqb].
    rewrite parse_bounded by assumption. cbn [bind].
    rewrite IH, <- List.app_assoc. reflexivity.
Qed.

(** *** [findall] *)

Lemma findall_from_skip (r : regex) (u rest : string) :
  findall_from r (String.length u) (u ++ rest) = findall_from r 0 rest.
Proof.
  induction u as [|a u IH]; cbn [String.length append]; [reflexivity|].
  cbn [findall_from]. exact IH.
Qed.

Lemma findall_no_match (r : regex) (a : ascii) (s : string) :
  re_match r (String a s) = None ->
  findall_from r 0 (String a s) = findall_from r 0 s.
Proof. intros H. cbn [findall_from]. now rewrite H. Qed.

Lemma findall_match (r : regex) (u rest g : string) (c : captures) :
  u <> "" ->
  re_match r (u ++ rest) = Some (MatchObj rest c) ->
  lookup 1 c = Some g ->
  findall_from r 0 (u ++ rest) = g :: findall_from r 0 rest.
Proof.
  intros Hu Hm Hg. destruct u as [|a u]; [congruence|].
  cbn [append] in *. cbn [findall_from]. rewrite Hm.
  unfold group. cbn [caps Re.rest]. rewrite Hg. f_equal.
  replace (String.length (String a (u ++ rest)) - String.length rest - 1)
    with (String.length u)
    by (cbn [String.length]; rewrite length_app; lia).
  apply findall_from_skip.
Qed.

Lemma re_match_key_element (k rest : string) :
  key_text k = true ->
  re_match key_re (("<Key>" ++ k ++ "</Key>") ++ rest)
  = Some (MatchObj rest [(1, k)]).
Proof.
  unfold key_text. rewrite andb_true_iff, negb_true_iff, String.eqb_neq.
  intros [Hne Hall]. unfold re_match, key_re.
  rewrite !app_assoc. rewrite run_cat, run_text, run_cat, run_grp.
  apply run_plus_cls; [assumption | assumption | reflexivity|].
  rewrite run_text, taken_app. reflexivity.
Qed.

Lemma re_match_key_re_lt (b : ascii) (s : string) :
  Ascii.eqb b "K" = false ->
  re_match key_re (String "<" (String b s)) = None.
Proof.
  intros H. unfold re_match, key_re. cbn [text].
  rewrite !run_cat, run_lit. cbn [Ascii.eqb Bool.eqb].
  rewrite !run_cat, run_lit. rewrite Ascii.eqb_sym. now rewrite H.
Qed.

Lemma re_match_key_re_other (a : ascii) (s : string) :
  Ascii.eqb a "<" = false -> re_match key_re (String a s) = None.
Proof.
  intros H. unfold re_match, key_re. cbn [text].
  rewrite !run_cat, run_lit. rewrite Ascii.eqb_sym. now rewrite H.
Qed.

(** Markup without a key element gives no key. *)
Lemma findall_markup (u rest : string) :
  no_open u = true ->
  findall_from key_re 0 (u ++ rest) = findall_from key_re 0 rest.
Proof.
  induction u as [|a u IH]; intros H; cbn [append]; [reflexivity|].
  cbn [no_open] in H. destruct (Ascii.eqb a "<") eqn:E.
  - apply Ascii.eqb_eq in E. subst a.
    destruct u as [|b u]; [discriminate|].
    apply andb_true_iff in H. destruct H as [Hb Hu].
    apply negb_true_iff in Hb. cbn [append].
    rewrite findall_no_match by now apply re_match_key_re_lt.
    now apply IH.
  - rewrite findall_no_match by now apply re_match_key_re_other.
    now apply IH.
Qed.

Lemma findall_closing (u : string) :
  no_open u = true -> findall_from key_re 0 u = [].
Proof.
  intros H. rewrite <- (app_nil_r u). rewrite findall_markup by assumption.
  reflexivity.
Qed.

(** The key elements of a listing are found, in order. *)
Lemma findall_document (parts : list (string * string)) (closing : string) :
  Forall (fun p => no_open (fst p) = true /\ key_text (snd p) = true) parts ->
  no_open closing = true ->
  findall key_re (document parts closing) = map snd parts.
Proof.
  intros H Hc. unfold findall.
  induction H as [|[u k] parts [Hu Hk] _ IH]; cbn [document map snd fst] in *.
  - now apply findall_closing.
  - rewrite findall_markup by assumption.
    change ("<Key>" ++ k ++ "</Key>" ++ document parts closing)
      with ("<Key>" ++ (k ++ "</Key>" ++ document parts closing)).
    rewrite <- (app_assoc k), <- (app_assoc "<Key>").
    rewrite findall_match with (g := k) (c := [(1, k)]).
    + now rewrite IH.
    + discriminate.
    + now apply re_match_key_element.
    + reflexivity.
Qed.

End ListingFacts.

(** ** Further facts: listings of versions, keys found, sorted lists *)

Module RunFacts.

Import ExtractFacts ListingFacts.

Lemma all_weaken (p q : ascii -> bool) (s : string) :
  (forall a, p a = true -> q a = true) ->
  Str.all p s = true -> Str.all q s = true.
Proof.
  intros H. induction s as [|a s IH]; simpl; [reflexivity|].
  rewrite !andb_true_iff. intros [Ha Hs]. auto.
Qed.

Lemma digit_not_lt (a : ascii) : is_digit a = true -> not_lt a = true.
Proof.
  unfold not_lt. destruct (Ascii.eqb_spec a "<"); [subst a|reflexivity].
  discriminate.
Qed.

Lemma digits_not_lt (d : string) :
  Str.all is_digit d = true -> Str.all not_lt d = true.
Proof. apply all_weaken, digit_not_lt. Qed.

Lemma render_not_lt (t : version_text) :
  well_formed t = true -> Str.all not_lt (render t) = true.
Proof.
  destruct t as [ma mi pa suf]. unfold well_formed, render.
  cbn [t_major t_minor t_patch t_suffix].
  rewrite !andb_true_iff. intros [[[H1 H2] H3] H4].
  apply digits_spec in H1, H2, H3.
  destruct H1 as [_ H1], H2 as [_ H2], H3 as [_ H3].
  rewrite !all_app.
  rewrite (digits_not_lt ma H1), (digits_not_lt mi H2), (digits_not_lt pa H3).
  destruct suf as [[[] n]|]; cbn [suffix_text marker];
    rewrite ?all_app, ?(digits_not_lt n H4); reflexivity.
Qed.

Lemma key_for_text prefix (t : version_text) :
  Str.all not_lt (Str.drop_last2 prefix) = true ->
  well_formed t = true -> key_text (key_for prefix t) = true.
Proof.
  intros Hs Hwf. unfold key_text, key_for. apply andb_true_iff. split.
  - apply negb_true_iff, String.eqb_neq.
    destruct (Str.drop_last2 prefix); discriminate.
  - rewrite !all_app, Hs, render_not_lt by assumption. reflexivity.
Qed.

(** The extractor on a listing of version keys. *)
Lemma extract_listing prefix (items : list item) (closing : string) :
  Str.all not_lt (Str.drop_last2 prefix) = true ->
  Forall item_ok items -> no_open closing = true ->
  extract (pattern_of prefix) (listing prefix items closing)
  = Some (map (candidate_of prefix) items).
Proof.
  intros Hs Hitems Hc. unfold extract, listing.
  rewrite findall_document; [|clear Hc|exact Hc].
  - rewrite map_map. cbn [snd].
    rewrite <- (map_map snd (key_for prefix)).
    rewrite collect_keys_for.
    + cbn [app]. now rewrite map_map.
    + apply Forall_map. apply Forall_impl with (2 := Hitems).
      intros it (_ & H1 & H2 & H3). auto.
  - apply Forall_map. apply Forall_impl with (2 := Hitems).
    intros it (H0 & H1 & H2 & H3). cbn [fst snd]. split; [exact H0|].
    now apply key_for_text.
Qed.

Lemma drop_last2_prefix (p t : string) :
  Str.drop_last2 (prefix_of p t) = "therock-dist-" ++ p ++ "-" ++ t.
Proof.
  unfold Str.drop_last2, prefix_of.
  replace ("therock-dist-" ++ p ++ "-" ++ t ++ "-7")
    with (("therock-dist-" ++ p ++ "-" ++ t) ++ "-7")
    by (now rewrite !app_assoc).
  rewrite length_app.
  replace (String.length ("therock-dist-" ++ p ++ "-" ++ t)
           + String.length "-7" - 2)
    with (String.length ("therock-dist-" ++ p ++ "-" ++ t))
    by (cbn [String.length]; lia).
  apply take_app.
Qed.

(** *** keys found in a text *)

Lemma findall_from_in (r : regex) (s : string) :
  forall skip g,
    In g (findall_from r skip s) ->
    exists pre s' m,
      s = pre ++ s' /\ re_match r s' = Some m /\
      g = match group 1 m with Some x => x | None => "" end.
Proof.
  induction s as [|a s IH]; intros skip g H; cbn [findall_from] in H.
  - destruct skip; [|destruct H].
    destruct (re_match r "") as [m|] eqn:E; [|destruct H].
    destruct H as [<- | []]. exists "", "", m. auto.
  - destruct skip as [|n].
    + destruct (re_match r (String a s)) as [m|] eqn:E.
      * destruct H as [<- | H].
        -- exists "", (String a s), m. auto.
        -- apply IH in H. destruct H as (pre & s' & m' & -> & H).
           exists (String a pre), s', m'. auto.
      * apply IH in H. destruct H as (pre & s' & m' & -> & H).
        exists (String a pre), s', m'. auto.
    + apply IH in H. destruct H as (pre & s' & m' & -> & H).
      exists (String a pre), s', m'. auto.
Qed.

Lemma sem_key_re s1 s2 c' :
  sem key_re s1 s2 [] c' ->
  exists k,
    key_text k = true /\ s1 = "<Key>" ++ k ++ "</Key>" /\ c' = [(1, k)].
Proof.
  unfold key_re. intros H.
  destruct H as (o & r1 & c1 & -> & H1 & H).
  apply sem_text in H1. destruct H1 as [-> ->].
  destruct H as (k & cl & c2 & -> & (cm & Hk & ->) & H).
  apply sem_text in H. destruct H as [-> ->].
  apply iter_class with (p := not_lt) in Hk.
  - destruct Hk as (Hne & Hall & ->). exists k.
    repeat split; auto. unfold key_text.
    apply String.eqb_neq in Hne. now rewrite Hne, Hall.
  - intros u v c0 c0' Hs. exact Hs.
Qed.

Lemma findall_key_re_in (data g : string) :
  In g (findall key_re data) ->
  key_text g = true /\
  exists pre post, data = pre ++ "<Key>" ++ g ++ "</Key>" ++ post.
Proof.
  intros H. apply findall_from_in in H.
  destruct H as (pre & s' & m & -> & Hm & ->).
  apply re_match_sound in Hm. destruct Hm as (s1 & -> & Hs).
  apply sem_key_re in Hs. destruct Hs as (k & Hk & -> & Hc).
  unfold group. rewrite Hc. cbn [lookup Nat.eqb]. split; [exact Hk|].
  exists pre, (rest m). now rewrite !app_assoc.
Qed.

(** *** sorted lists *)

Lemma sorted_app_cross {A} (R : A -> A -> Prop) (l1 l2 : list A) :
  StronglySorted R (l1 ++ l2)%list ->
  Forall (fun a => Forall (R a) l2) l1.
Proof.
  induction l1 as [|a l1 IH]; cbn [app]; intros H; [constructor|].
  apply StronglySorted_inv in H. destruct H as [H Ha].
  constructor; [|auto]. apply Forall_app in Ha. apply Ha.
Qed.

Lemma slice_to_prefix {A} (n : Z) (l : list A) :
  exists k, slice_to n l = firstn k l.
Proof. unfold slice_to. destruct (n <? 0)%Z; eauto. Qed.

End RunFacts.

(** ** Further facts: runs of [main] after the fetch *)

Module OutcomeFacts.

Import ExtractFacts.

Lemma parse_args_set_quiet (q : bool) cl args :
  parse_args cl = Some args ->
  parse_args (set_quiet q cl)
  = Some {| platform := platform args; target := target args;
            count := count args; quiet := q |}.
Proof.
  unfold parse_args, set_quiet.
  cbn [opt_platform opt_target opt_count opt_quiet].
  destruct (existsb _ _); [|discriminate].
  intros H. injection H as <-. reflexivity.
Qed.

End OutcomeFacts.

Import FieldFacts ExtractFacts ListingFacts RunFacts OutcomeFacts.

(** ** Further properties of the script *)

(** X1. [parse_version] raises on exactly one kind of string: a version text
    (possibly followed by a newline) with a number of more than 4300 digits,
    on which [int] raises.  On every other string it returns a tuple. *)
Theorem parse_version_raises_on_long_numbers (v : string) :
  parse_version v = None <->
  exists t nl,
    well_formed t = true /\ line_end nl /\ v = render t ++ nl /\
    bounded t = false.
Proof.
  split.
  - intros H.
    destruct (parse_version_cases v)
      as [[_ E] | (t & nl & Hwf & Hnl & Hv & E)]; [congruence|].
    exists t, nl. repeat split; auto.
    destruct (bounded t); [congruence | reflexivity].
  - intros (t & nl & Hwf & Hnl & -> & Hb).
    now rewrite parse_rendered, Hb.
Qed.

(** An instance of X1: 4300 zeros and a 1, then .0.0. *)
Lemma parse_version_raises_on_long_numbers_witness :
  parse_version (render (VersionText (zeros 4300 ++ "1") "0" "0" None))
  = None.
Proof.
  apply (proj2 (parse_version_raises_on_long_numbers _)).
  exists (VersionText (zeros 4300 ++ "1") "0" "0" None), "".
  split; [vm_compute; reflexivity|]. split; [now left|].
  split; [now rewrite app_nil_r | vm_compute; reflexivity].
Defined.

(** X2. In every tuple [parse_version] returns, major, minor, patch and
    the build number are not negative, the channel rank is 0, 1 or 2, and a
    stable version (rank 2) has build number 0. *)
Theorem parse_version_fields (v : string) (a b c d e : Z) :
  parse_version v = Some (a, b, c, d, e) ->
  (0 <= a /\ 0 <= b /\ 0 <= c /\ (d = 0 \/ d = 1 \/ d = 2) /\ 0 <= e /\
   (d = 2 -> e = 0))%Z.
Proof.
  intros H.
  destruct (parse_version_cases v) as [[_ E] | (t & nl & Hwf & _ & _ & E)];
    rewrite E in H.
  - unfold sentinel in H. inversion H; subst. lia.
  - destruct (bounded t); [|discriminate].
    apply key_of_fields with t; [assumption | congruence].
Qed.

(** An instance of X2: 7.1.0a12. *)
Lemma parse_version_fields_witness :
  (0 <= 7 /\ 0 <= 1 /\ 0 <= 0 /\ (0 = 0 \/ 0 = 1 \/ 0 = 2) /\ 0 <= 12 /\
   (0 = 2 -> 12 = 0))%Z.
Proof. apply (parse_version_fields "7.1.0a12"). reflexivity. Defined.

(** X3. A version text, of numbers within the limit of [int], followed by one
    newline parses as the text alone: [$] matches in front of a final
    newline. *)
Theorem trailing_newline_is_accepted (t : version_text) :
  well_formed t = true -> bounded t = true ->
  parse_version (render t ++ newline) = Some (key_of t) /\
  parse_version (render t ++ newline) = parse_version (render t).
Proof.
  intros H B.
  assert (E : parse_version (render t ++ newline) = Some (key_of t)).
  { rewrite parse_rendered, B; [reflexivity | assumption | now right]. }
  split; [exact E|]. now rewrite E, parse_bounded.
Qed.

(** An instance of X3: 7.0.1rc2 and a newline. *)
Lemma trailing_newline_is_accepted_witness :
  parse_version ("7.0.1rc2" ++ newline) = Some (7, 0, 1, 1, 2)%Z.
Proof.
  apply (proj1 (trailing_newline_is_accepted
                  (VersionText "7" "0" "1" (Some (RC, "2")))
                  eq_refl eq_refl)).
Defined.

(** X4. Zeros in front of the major, minor, patch or build number do not
    change the tuple, as long as no number grows over 4300 digits: [int]
    reads the numbers, so different strings can have the same VersionKey. *)
Theorem leading_zeros_are_ignored (z1 z2 z3 z4 : nat) (t : version_text) :
  well_formed t = true ->
  bounded (padded z1 z2 z3 z4 t) = true ->
  parse_version (render (padded z1 z2 z3 z4 t)) = Some (key_of t) /\
  parse_version (render (padded z1 z2 z3 z4 t)) = parse_version (render t).
Proof.
  intros H B.
  rewrite !parse_bounded by eauto using padded_well_formed, padded_bounded.
  now rewrite padded_key.
Qed.

(** An instance of X4: 007.00.01rc0002. *)
Lemma leading_zeros_are_ignored_witness :
  parse_version "007.00.01rc0002" = parse_version "7.0.1rc2".
Proof.
  apply (proj2 (leading_zeros_are_ignored 2 1 1 3
                  (VersionText "7" "0" "1" (Some (RC, "2")))
                  eq_refl eq_refl)).
Defined.

(** X5. How a run with an accepted command line ends.  When the fetch fails,
    the Fetching line is all that was printed (nothing when quiet).  When the
    listing is fetched, the run finishes if no key of it has more than 4300
    characters; a run that does not finish has printed no URL, and the listing
    holds a key stem-version.tar.gz with a number of more than 4300 digits,
    on which [int] raises. *)
Theorem main_outcome cl args (urlopen : string -> option string) :
  parse_args cl = Some args ->
  let prefix := prefix_of (platform args) (s3_target_of (target args)) in
  let failed :=
    {| stdout := info (quiet args) (fetching_line prefix);
       status := Raised |} in
  match urlopen (query_url args) with
  | None => main cl urlopen = failed
  | Some data =>
      (Forall (fun key => fits key = true) (findall key_re data) ->
       status (main cl urlopen) = Finished) /\
      (status (main cl urlopen) <> Finished ->
       main cl urlopen = failed /\
       exists key t,
         In key (findall key_re data) /\
         well_formed t = true /\ numbered t = true /\
         key_shape prefix key t /\ bounded t = false)
  end.
Proof.
  intros Hargs prefix failed.
  destruct (urlopen (query_url args)) as [data|] eqn:Hurl.
  - split.
    + intros Hshort.
      destruct (extract_short_keys prefix data Hshort) as [cands Hext].
      now rewrite (main_finished cl args urlopen data cands Hargs Hurl Hext).
    + intros Hst.
      destruct (extract (pattern_of prefix) data) as [cands|] eqn:Hext.
      * rewrite (main_finished cl args urlopen data cands Hargs Hurl Hext)
          in Hst.
        now destruct Hst.
      * split.
        -- unfold main. rewrite Hargs. fold prefix.
           unfold query_url in Hurl. fold prefix in Hurl.
           now rewrite Hurl, Hext.
        -- unfold extract in Hext. now apply collect_raises in Hext.
  - unfold main. rewrite Hargs. fold prefix.
    unfold query_url in Hurl. fold prefix in Hurl. now rewrite Hurl.
Qed.

(** Instances of X5: the sample listing, and a listing with a major version
    of 4301 digits. *)
Lemma main_outcome_witness :
  status (main (linux_cl 5 false) (fun _ => Some sample_data)) = Finished /\
  main (linux_cl 5 false) (fun _ => Some overlong_data)
  = {| stdout :=
         ["Fetching S3 listing for prefix: therock-dist-linux-gfx1151-7 ..."];
       status := Raised |}.
Proof.
  split.
  - apply (proj1 (main_outcome (linux_cl 5 false) (linux_args 5 false)
                    (fun _ => Some sample_data) eq_refl)).
    vm_compute. repeat constructor.
  - apply (proj2 (main_outcome (linux_cl 5 false) (linux_args 5 false)
                    (fun _ => Some overlong_data) eq_refl)).
    vm_compute. discriminate.
Defined.

(** X6. Every candidate of the extractor has a key found in the listing,
    of the shape stem-version.tar.gz behind any text and in front of at most a
    final newline, where version is a numbered version text; its VersionKey is
    the tuple of that text.  So [main] never hands [parse_version] a string
    outside its grammar, nor a channel marker without a number. *)
Theorem extracted_candidates_are_versions prefix data cands :
  extract (pattern_of prefix) data = Some cands ->
  Forall (fun c =>
            In (snd c) (findall key_re data) /\
            exists t,
              well_formed t = true /\ numbered t = true /\
              key_shape prefix (snd c) t /\
              fst c = key_of t /\ parse_version (render t) = Some (fst c))
         cands.
Proof.
  intros H.
  destruct (extract_pattern prefix data cands H) as (Hok & Hkeys).
  apply Forall_forall. intros c Hc. split.
  - assert (Hin : In (snd c) (map snd cands)) by now apply in_map.
    rewrite Hkeys in Hin. apply filter_In in Hin. apply Hin.
  - rewrite Forall_forall in Hok.
    destruct (Hok c Hc) as (t & H1 & H2 & Hb & H3 & H4).
    exists t. repeat split; auto. rewrite H4. now apply parse_bounded.
Qed.

(** An instance of X6: the sample listing. *)
Lemma extracted_candidates_are_versions_witness :
  Forall (fun c =>
            In (snd c) (findall key_re sample_data) /\
            exists t,
              well_formed t = true /\ numbered t = true /\
              key_shape sample_prefix (snd c) t /\
              fst c = key_of t /\ parse_version (render t) = Some (fst c))
         sample_candidates.
Proof.
  apply (extracted_candidates_are_versions sample_prefix sample_data).
  vm_compute. reflexivity.
Defined.

(** X7. The candidates carry the keys of the listing that the pattern
    finds, each once per occurrence and in the order of the listing. *)
Theorem extract_keeps_listing_order prefix data cands :
  extract (pattern_of prefix) data = Some cands ->
  map snd cands = filter (retained (pattern_of prefix)) (findall key_re data).
Proof.
  intros H. exact (proj2 (extract_pattern prefix data cands H)).
Qed.

(** An instance of X7: the sample listing. *)
Lemma extract_keeps_listing_order_witness :
  map snd sample_candidates
  = filter (retained (pattern_of sample_prefix)) (findall key_re sample_data).
Proof.
  apply (extract_keeps_listing_order sample_prefix sample_data).
  vm_compute. reflexivity.
Defined.

(** X8. Every key found in a text is not empty, holds no [<], and stands
    in the text between [<Key>] and [</Key>]. *)
Theorem findall_keys_are_key_texts (data g : string) :
  In g (findall key_re data) ->
  key_text g = true /\
  exists pre post, data = pre ++ "<Key>" ++ g ++ "</Key>" ++ post.
Proof. exact (findall_key_re_in data g). Qed.

(** An instance of X8: a text with one filled and one empty key element. *)
Lemma findall_keys_are_key_texts_witness :
  key_text "a/b" = true /\
  exists pre post, "x<Key>a/b</Key><Key></Key>" = pre ++ "<Key>" ++ "a/b" ++ "</Key>" ++ post.
Proof.
  apply (findall_keys_are_key_texts "x<Key>a/b</Key><Key></Key>" "a/b").
  vm_compute. left. reflexivity.
Defined.

(** X9. From a listing built of key elements with markup between them,
    the keys come back in order, when no key is empty or holds [<] and the
    markup holds no [<K] and does not end in [<]. *)
Theorem findall_recovers_keys (parts : list (string * string))
  (closing : string) :
  Forall (fun p => no_open (fst p) = true /\ key_text (snd p) = true) parts ->
  no_open closing = true ->
  findall key_re (document parts closing) = map snd parts.
Proof. exact (findall_document parts closing). Qed.

(** An instance of X9: two keys. *)
Lemma findall_recovers_keys_witness :
  findall key_re
    (document [("<Contents>", "a.tar.gz"); ("<Size>3</Size>", "b c")]
       "</Contents>")
  = ["a.tar.gz"; "b c"].
Proof.
  apply (findall_recovers_keys
           [("<Contents>", "a.tar.gz"); ("<Size>3</Size>", "b c")]
           "</Contents>").
  - repeat constructor.
  - reflexivity.
Defined.

(** X10. From a listing of keys stem-version.tar.gz of numbered versions
    the extractor returns every key with the tuple of its version, in listing
    order, and [main] prints the URLs of the newest of them.  The target must
    hold no [<]. *)
Theorem listing_of_versions_is_extracted cl args urlopen
  (items : list item) (closing : string) :
  parse_args cl = Some args ->
  let prefix := prefix_of (platform args) (s3_target_of (target args)) in
  Str.all not_lt (target args) = true ->
  Forall item_ok items -> no_open closing = true ->
  urlopen (query_url args) = Some (listing prefix items closing) ->
  let cands := map (candidate_of prefix) items in
  extract (pattern_of prefix) (listing prefix items closing) = Some cands /\
  stdout (main cl urlopen)
  = (info (quiet args) (fetching_line prefix)
     ++ info (quiet args)
          (showing_line (length (newest_of (count args) (sort_reverse cands))))
     ++ map url_of (newest_of (count args) (sort_reverse cands)))%list.
Proof.
  intros Hargs prefix Ht Hitems Hc Hurl cands.
  assert (Hp : platform args = "linux" \/ platform args = "windows").
  { unfold parse_args in Hargs.
    destruct (existsb _ _) eqn:E; [|discriminate].
    injection Hargs as <-. cbn [platform].
    cbn [platform_choices existsb] in E.
    destruct (String.eqb_spec (default "linux" (opt_platform cl)) "linux");
      [now left|].
    destruct (String.eqb_spec (default "linux" (opt_platform cl)) "windows");
      [now right | discriminate]. }
  assert (Hs : Str.all not_lt (Str.drop_last2 prefix) = true).
  { unfold prefix. rewrite drop_last2_prefix, !all_app.
    assert (Ht' : Str.all not_lt (s3_target_of (target args)) = true).
    { unfold s3_target_of.
      destruct (String.eqb (target args) "gfx110X");
        [now rewrite all_app, Ht|].
      destruct (String.eqb (target args) "gfx120X");
        [now rewrite all_app, Ht | exact Ht]. }
    rewrite Ht'. destruct Hp as [-> | ->]; reflexivity. }
  assert (E : extract (pattern_of prefix) (listing prefix items closing)
              = Some cands) by now apply extract_listing.
  split; [exact E|].
  now rewrite (main_finished cl args urlopen _ cands Hargs Hurl E).
Qed.

(** An instance of X10: the sample listing with --count 2. *)
Lemma listing_of_versions_is_extracted_witness :
  extract (pattern_of sample_prefix) sample_data = Some sample_candidates /\
  stdout (main (linux_cl 2 true) (fun _ => Some sample_data))
  = [S3_BASE ++ "therock-dist-linux-gfx1151-7.1.0a3.tar.gz";
     S3_BASE ++ "therock-dist-linux-gfx1151-7.0.0.tar.gz"].
Proof.
  destruct (listing_of_versions_is_extracted (linux_cl 2 true)
              (linux_args 2 true) (fun _ => Some sample_data)
              sample_items "</Contents></ListBucketResult>"
              eq_refl eq_refl
              ltac:(repeat constructor) eq_refl eq_refl) as [H1 H2].
  split; [exact H1|]. rewrite H2. vm_compute. reflexivity.
Defined.

(** X11. With [-q] a run that gets and extracts its listing prints the URL
    lines only; without it the same lines follow the Fetching line and a
    Showing line that counts them.  The exit status is the same. *)
Theorem quiet_drops_the_status_lines cl args urlopen data cands :
  parse_args cl = Some args ->
  urlopen (query_url args) = Some data ->
  extract
    (pattern_of (prefix_of (platform args) (s3_target_of (target args))))
    data = Some cands ->
  let urls := stdout (main (set_quiet true cl) urlopen) in
  stdout (main (set_quiet false cl) urlopen)
  = fetching_line (prefix_of (platform args) (s3_target_of (target args)))
    :: showing_line (length urls) :: urls /\
  status (main (set_quiet true cl) urlopen)
  = status (main (set_quiet false cl) urlopen).
Proof.
  intros Hargs Hurl Hext urls.
  pose proof (parse_args_set_quiet true cl args Hargs) as Hq.
  pose proof (parse_args_set_quiet false cl args Hargs) as Hn.
  pose proof (main_finished _ _ urlopen data cands Hq Hurl Hext) as M1.
  pose proof (main_finished _ _ urlopen data cands Hn Hurl Hext) as M2.
  cbn [platform target count quiet] in M1, M2.
  unfold urls. rewrite M1, M2. cbn [stdout status info app].
  unfold report. rewrite length_map. auto.
Qed.

(** An instance of X11: the sample listing with --count 1. *)
Lemma quiet_drops_the_status_lines_witness :
  stdout (main (linux_cl 1 false) (fun _ => Some sample_data))
  = ["Fetching S3 listing for prefix: therock-dist-linux-gfx1151-7 ...";
     "Showing 1 newest candidate(s):";
     S3_BASE ++ "therock-dist-linux-gfx1151-7.1.0a3.tar.gz"].
Proof.
  destruct (quiet_drops_the_status_lines (linux_cl 1 true) (linux_args 1 true)
              (fun _ => Some sample_data) sample_data sample_candidates
              eq_refl eq_refl ltac:(vm_compute; reflexivity))
    as [H _].
  change (set_quiet false (linux_cl 1 true)) with (linux_cl 1 false) in H.
  rewrite H. vm_compute. reflexivity.
Defined.

(** X12. For every count, the candidates printed are a front part of the
    sorted list, none of them is below a candidate left out, and for a count
    that is not negative their number is the smaller of the count and the
    number of candidates. *)
Theorem printed_are_the_newest cl args urlopen data cands :
  parse_args cl = Some args ->
  let prefix := prefix_of (platform args) (s3_target_of (target args)) in
  urlopen (query_url args) = Some data ->
  extract (pattern_of prefix) data = Some cands ->
  exists printed dropped,
    sort_reverse cands = (printed ++ dropped)%list /\
    stdout (main cl urlopen)
    = (info (quiet args) (fetching_line prefix)
       ++ info (quiet args) (showing_line (length printed))
       ++ map url_of printed)%list /\
    Forall (fun p => Forall (fun d => cand_ltb p d = false) dropped) printed /\
    ((0 <= count args)%Z ->
     length printed = Nat.min (Z.to_nat (count args)) (length cands)).
Proof.
  intros Hargs prefix Hurl Hext.
  destruct (slice_to_prefix (count args) (sort_reverse cands)) as [k Hk].
  exists (firstn k (sort_reverse cands)), (skipn k (sort_reverse cands)).
  split; [now rewrite firstn_skipn|]. split; [|split].
  - rewrite (main_finished cl args urlopen data cands Hargs Hurl Hext).
    cbn [stdout]. now rewrite newest_of_slice, Hk.
  - apply (sorted_app_cross cand_ge). rewrite firstn_skipn.
    apply sort_reverse_descending.
  - intros Hc. rewrite slice_to_nonneg in Hk by assumption.
    rewrite <- Hk, length_firstn.
    now rewrite <- (Permutation_length (sort_reverse_perm cands)).
Qed.

(** An instance of X12: the sample listing with --count 2. *)
Lemma printed_are_the_newest_witness :
  exists printed dropped,
    sort_reverse sample_candidates = (printed ++ dropped)%list /\
    stdout (main (linux_cl 2 true) (fun _ => Some sample_data))
    = map url_of printed /\
    Forall (fun p => Forall (fun d => cand_ltb p d = false) dropped) printed /\
    length printed = 2.
Proof.
  destruct (printed_are_the_newest (linux_cl 2 true) (linux_args 2 true)
              (fun _ => Some sample_data) sample_data sample_candidates
              eq_refl eq_refl ltac:(vm_compute; reflexivity))
    as (printed & dropped & H1 & H2 & H3 & H4).
  exists printed, dropped. split; [exact H1|]. split; [exact H2|].
  split; [exact H3|]. apply H4. discriminate.
Defined.

(** X13. A run depends on the network through one URL only, base, then
    [?prefix=], then the prefix: two networks that answer it alike give the
    same run. *)
Theorem main_opens_one_url cl (urlopen1 urlopen2 : string -> option string) :
  (forall args,
      parse_args cl = Some args ->
      urlopen1 (query_url args) = urlopen2 (query_url args)) ->
  main cl urlopen1 = main cl urlopen2.
Proof.
  intros H. unfold main.
  destruct (parse_args cl) as [args|] eqn:E; [|reflexivity].
  specialize (H args eq_refl). unfold query_url in H. now rewrite H.
Qed.

(** An instance of X13: a network that knows the one URL only. *)
Lemma main_opens_one_url_witness :
  main defaults
    (fun url => if String.eqb url (query_url (linux_args 5 false))
                then Some sample_data else None)
  = main defaults (fun _ => Some sample_data).
Proof.
  apply (main_opens_one_url defaults).
  intros args H. injection H as <-. reflexivity.
Defined.

(** X14. The text in front of the version in the filename pattern is the
    prefix without its last two characters, the major version 7: the key
    therock-dist-platform-target-version.tar.gz of every numbered version,
    of whatever major, is retained. *)
Theorem pattern_stem_is_prefix_without_major (p t : string)
  (v : version_text) :
  Str.drop_last2 (prefix_of p t) = "therock-dist-" ++ p ++ "-" ++ t /\
  key_for (prefix_of p t) v
  = "therock-dist-" ++ p ++ "-" ++ t ++ "-" ++ render v ++ ".tar.gz" /\
  (well_formed v = true -> numbered v = true ->
   retained (pattern_of (prefix_of p t)) (key_for (prefix_of p t) v) = true).
Proof.
  split; [apply drop_last2_prefix|]. split.
  - unfold key_for. rewrite drop_last2_prefix, !app_assoc. reflexivity.
  - intros H1 H2. unfold retained. now rewrite search_key_for.
Qed.

(** An instance of X14: a key of version 6.4.2rc1. *)
Lemma pattern_stem_is_prefix_without_major_witness :
  retained (pattern_of (prefix_of "linux" "gfx1151"))
    "therock-dist-linux-gfx1151-6.4.2rc1.tar.gz" = true.
Proof.
  apply (proj2 (proj2 (pattern_stem_is_prefix_without_major
                         "linux" "gfx1151"
                         (VersionText "6" "4" "2" (Some (RC, "1"))))));
    reflexivity.
Defined.

(** X15. The sort leaves a list alone that is already in descending order
    of (VersionKey, key). *)
Theorem sorted_listing_is_unchanged (l : list Candidate) :
  StronglySorted (fun a b => cand_ltb a b = false) l ->
  sort_reverse l = l.
Proof.
  intros H. apply sorted_unique with (R := cand_ge).
  - exact cand_ge_antisym.
  - apply sort_reverse_descending.
  - exact H.
  - symmetry. apply sort_reverse_perm.
Qed.

(** An instance of X15: two keys of one version. *)
Lemma sorted_listing_is_unchanged_witness :
  sort_reverse [tie_first; tie_second] = [tie_first; tie_second].
Proof.
  apply (sorted_listing_is_unchanged [tie_first; tie_second]).
  repeat constructor.
Defined.
